(** * brooktool: a supervisor for the brook proxy client

    A shallow embedding of [src/app/brooktool/main.go] and the properties
    of its life cycle: discovery of the brook binary, the PAC handler, the
    system-proxy toggle command, the start-up sequence of [main], the
    goroutines of its concurrent phase (file watcher, child process, the
    orchestrating select) and the mutex-protected PAC store.

    Conventions.  A Go [error] value is [option error] ([None] is [nil]);
    a [[]byte] is [list byte]; everything the program asks of the operating
    system (directory listings, file contents, command outcomes, the clock)
    is an explicit input, and everything it does to it is an [Effect] in a
    trace. *)

From Stdlib Require Import ZArith NArith Strings.Byte Lia.
From stdpp Require Import base tactics option list strings pretty.

Open Scope string_scope.
Open Scope list_scope.

(** ** Errors and byte slices *)

(** [errors.New(s)]: an error is what its [Error()] method prints. *)
Inductive error := errorString (s : string).

Definition Error (e : error) : string :=
  match e with errorString s => s end.

Definition errors_New (s : string) : error := errorString s.

Definition bytes := list byte.

(** * Discovery of the brook binary *)

Module Search.

(** The directory tree below the start directory, as [ioutil.ReadDir] and
    [os.FileInfo] show it: reading a directory either fails or lists its
    entries, and an entry is a regular file or a directory. *)
Inductive ReadDir :=
| ReadDirErr (err : error)
| ReadDirOk (rd : list FileInfo)
with FileInfo :=
| File (Name : string)
| Dir (Name : string) (sub : ReadDir).

(** What one call returns, with the calls of [ioutil.ReadDir] it made, in
    order, each with the error it came back with. *)
Record Found := {
  path : string;
  err : option error;
  reads : list (string * option error)
}.

Section WithNames.

(** [filepath.Join] and the name of the binary ([brook], or [brook.exe]
    after [init] on Windows). *)
Variable Join : string -> string -> string.
Variable brookBinFile : string.

Fixpoint searchExecutableFile (dir : string) (t : ReadDir) : Found :=
  match t with
  | ReadDirErr e =>
      {| path := ""; err := Some e; reads := [(dir, Some e)] |}
  | ReadDirOk rd =>
      (fix range (rd : list FileInfo) (log : list (string * option error)) : Found :=
         match rd with
         | [] => {| path := ""; err := None; reads := log |}
         | fi :: rest =>
             match fi with
             | Dir name sub =>
                 let r := searchExecutableFile (Join dir name) sub in
                 match err r with
                 | Some e => {| path := ""; err := Some e; reads := log ++ reads r |}
                 | None =>
                     if negb (String.eqb (path r) "")
                     then {| path := path r; err := None; reads := log ++ reads r |}
                     else range rest (log ++ reads r)
                 end
             | File name =>
                 if String.eqb name brookBinFile
                 then {| path := Join dir name; err := None; reads := log |}
                 else range rest log
             end
         end) rd [(dir, None)]
  end.

(** Some regular file of the tree has the expected name. *)
Fixpoint hasMatch (t : ReadDir) : bool :=
  match t with
  | ReadDirErr _ => false
  | ReadDirOk rd =>
      (fix any (rd : list FileInfo) : bool :=
         match rd with
         | [] => false
         | File name :: rest => String.eqb name brookBinFile || any rest
         | Dir _ sub :: rest => hasMatch sub || any rest
         end) rd
  end.

End WithNames.

(** [filepath.Join] on a clean directory and a plain entry name. *)
Definition joinSlash (dir name : string) : string := dir +:+ "/" +:+ name.

(** *** Induction over the directory tree *)

Section TreeInduction.

Variable P : ReadDir -> Prop.
Hypothesis P_err : forall e, P (ReadDirErr e).
Hypothesis P_ok : forall rd,
  Forall (fun fi => match fi with File _ => True | Dir _ sub => P sub end) rd ->
  P (ReadDirOk rd).

Fixpoint ReadDir_tree_ind (t : ReadDir) : P t :=
  match t with
  | ReadDirErr e => P_err e
  | ReadDirOk rd =>
      P_ok rd
        ((fix entries (l : list FileInfo) :
            Forall (fun fi => match fi with File _ => True | Dir _ sub => P sub end) l :=
            match l with
            | [] => List.Forall_nil _
            | fi :: l' =>
                List.Forall_cons _ fi l'
                  (match fi as f
                         return match f with File _ => True | Dir _ sub => P sub end
                   with
                   | File _ => I
                   | Dir _ sub => ReadDir_tree_ind sub
                   end)
                  (entries l')
            end) rd)
  end.

End TreeInduction.

Section SearchFacts.

Variable Join : string -> string -> string.
Variable brookBinFile : string.

Local Abbreviation search := (searchExecutableFile Join brookBinFile).

(** No call of the log came back with an error. *)
Definition allRead (log : list (string * option error)) : Prop :=
  Forall (fun c => c.2 = None) log.

(** The two shapes of a result: no read failed and no error is returned,
    or the last read failed, its error is returned and the path is empty. *)
Definition shape (r : Found) : Prop :=
  (err r = None /\ allRead (reads r)) \/
  (exists d e pre,
      err r = Some e /\ path r = "" /\
      reads r = pre ++ [(d, Some e)] /\ allRead pre).

Lemma search_shape dir t : shape (search dir t).
Proof.
  revert dir. induction t as [e | rd IH] using ReadDir_tree_ind; intros dir.
  - right. exists dir, e, []. simpl. repeat split; constructor.
  - simpl.
    assert (Hlog : allRead [(dir, @None error)]) by (repeat constructor).
    revert Hlog. generalize [(dir, @None error)] as log.
    induction IH as [ | fi rest Hfi _ IHrest]; intros log Hlog.
    + left. simpl. done.
    + destruct fi as [name | name sub].
      * destruct (String.eqb name brookBinFile); [ left; simpl; done | by apply IHrest ].
      * specialize (Hfi (Join dir name)).
        destruct Hfi as [[He Hr] | (d & e & pre & He & Hp & Hr & Hpre)].
        -- rewrite He.
           destruct (negb (String.eqb (path (search (Join dir name) sub)) "")).
           ++ left. simpl. split; [done | by apply Forall_app].
           ++ apply IHrest. by apply Forall_app.
        -- rewrite He. right. exists d, e, (log ++ pre). simpl.
           repeat split; [ by rewrite Hr, app_assoc | by apply Forall_app ].
Qed.

Lemma search_no_match dir t :
  hasMatch brookBinFile t = false -> path (search dir t) = "".
Proof.
  revert dir. induction t as [e | rd IH] using ReadDir_tree_ind; intros dir; [done | ].
  simpl. generalize [(dir, @None error)] as log.
  induction IH as [ | fi rest Hfi _ IHrest]; intros log Hm; [done | ].
  destruct fi as [name | name sub]; apply orb_false_iff in Hm as [Hm1 Hm2].
  - rewrite Hm1. by apply IHrest.
  - specialize (Hfi (Join dir name) Hm1).
    destruct (err (search (Join dir name) sub)); [done | ].
    rewrite Hfi. simpl. by apply IHrest.
Qed.

(** C10: when a read of the traversal fails, the search returns that error
    and an empty path, whatever the entries not yet visited hold (a file
    with the expected name among them changes nothing); when no read fails
    and no regular file has the expected name, it returns an empty path and
    a nil error. *)
Theorem searchExecutableFile_read_error dir t :
  let r := searchExecutableFile Join brookBinFile dir t in
  (forall d e, In (d, Some e) (reads r) -> path r = "" /\ err r = Some e) /\
  (allRead (reads r) -> hasMatch brookBinFile t = false ->
   path r = "" /\ err r = None).
Proof.
  intros r. subst r. split.
  - intros d e Hin.
    destruct (search_shape dir t) as [[_ Hall] | (d' & e' & pre & He & Hp & Hr & Hpre)].
    + unfold allRead in Hall. rewrite Forall_forall in Hall.
      apply list_elem_of_In in Hin. by specialize (Hall _ Hin).
    + rewrite Hr in Hin. apply in_app_or in Hin as [Hin | [Hin | []]].
      * unfold allRead in Hpre. rewrite Forall_forall in Hpre.
        apply list_elem_of_In in Hin. by specialize (Hpre _ Hin).
      * by simplify_eq.
  - intros Hall Hm. split; [ by apply search_no_match | ].
    destruct (search_shape dir t) as [[He _] | (d' & e' & pre & He & Hp & Hr & Hpre)]; [done | ].
    rewrite Hr in Hall. apply Forall_app in Hall as [_ Hall].
    by inversion Hall.
Qed.

End SearchFacts.

(** A directory whose first entry cannot be read and whose second entry is
    the binary itself: the search fails although [brook] is right there. *)
Definition blockedTree : ReadDir :=
  ReadDirOk [Dir "a" (ReadDirErr (errorString "permission denied")); File "brook"].

(** A tree that reads well and holds no binary. *)
Definition emptyTree : ReadDir :=
  ReadDirOk [File "README"; Dir "bin" (ReadDirOk [File "brooktool"])].

Lemma searchExecutableFile_read_error_witness :
  (hasMatch "brook" blockedTree = true /\
   path (searchExecutableFile joinSlash "brook" "/opt" blockedTree) = "" /\
   err (searchExecutableFile joinSlash "brook" "/opt" blockedTree)
   = Some (errorString "permission denied")) /\
  (path (searchExecutableFile joinSlash "brook" "/opt" emptyTree) = "" /\
   err (searchExecutableFile joinSlash "brook" "/opt" emptyTree) = None).
Proof.
  split; [ split; [ reflexivity | ] | ].
  - apply (proj1 (searchExecutableFile_read_error joinSlash "brook" "/opt" blockedTree)
             "/opt/a" (errorString "permission denied")).
    simpl. right. left. reflexivity.
  - apply (proj2 (searchExecutableFile_read_error joinSlash "brook" "/opt" emptyTree)).
    + repeat constructor.
    + reflexivity.
Defined.

End Search.

(** * What the program asks of and does to its environment *)

(** [fsnotify.Event]; [Op] is a bit mask, [fsnotify.Write] is bit 1. *)
Record Event := { Name : string; Op : N }.

Definition fsnotify_Write : N := 2.

Inductive Signal := SIGHUP | SIGINT | SIGTERM | SIGQUIT.

(** Arguments of a [log] call, before formatting. *)
Inductive Arg :=
| AStr (s : string)
| AErr (e : option error)
| AEvent (ev : Event)
| ASignal (sig : Signal).

(** The three goroutines [main] launches. *)
Inductive Goroutine := ServeLoop | WatchLoop | BrookWait.

Inductive Effect :=
| PrintDefaults
| LogPrint (v : Arg)
| LogPrintf (format : string) (args : list Arg)
| LogFatal (v : Arg)
| LogFatalf (format : string) (args : list Arg)
| ReadDirCall (dir : string)
| HttpGet (url : string)
| WriteFile (name : string) (data : bytes)
| ReadFile (name : string)
| NetListen (address : string)
| Go (g : Goroutine)
| ExecStart (argv : list string)
| NewWatcher
| WatcherAdd (name : string)
| SignalNotify
| SigRecv (sig : Signal)
| Cancel
| ChanSend (v : option error)
| ChanRecv (v : option error)
| MuLock
| MuUnlock
| SetClosed
| StorePac (data : bytes)
| ListenerClose.

(** What starting an external command gives: the error of [Start] and the
    contents of the buffer wired to its stdout and stderr at the moment the
    caller looks at it. *)
Record CmdOutcome := { startErr : option error; output : string }.

Definition defaultPAC : string := "https://blackwhite.txthinking.com/white.pac".
Definition pacLocalPath : string := "./pac.txt".

(** * The PAC handler and the toggle command *)

Module Pac.

Definition StatusOK : nat := 200.
Definition StatusNotFound : nat := 404.

(** [http.ResponseWriter]: the status line goes out with the first
    [WriteHeader], or with the first [Write], which sends 200 when no header
    was written yet. *)
Record ResponseWriter := { status : option nat; body : bytes }.

Definition newResponse : ResponseWriter := {| status := None; body := [] |}.

Definition WriteHeader (code : nat) (w : ResponseWriter) : ResponseWriter :=
  match status w with
  | None => {| status := Some code; body := body w |}
  | Some _ => w
  end.

Definition Write (data : bytes) (w : ResponseWriter) : ResponseWriter :=
  let w := WriteHeader StatusOK w in
  {| status := status w; body := body w ++ data |}.

(** [pacHandler]; its mutex [mu] is the subject of [ConfigStore] below. *)
Record pacHandler := { pacData : bytes }.

Definition ServeHTTP (h : pacHandler) (RequestURI : string) (w : ResponseWriter)
  : pacHandler * ResponseWriter :=
  if String.prefix "/pac" RequestURI then
    let data := pacData h in
    (h, Write data w)
  else
    (h, WriteHeader StatusNotFound w).

(** [fmt.Errorf("Failed to reload pac: %v", err)] *)
Definition reloadError (e : error) : error :=
  errors_New ("Failed to reload pac: " +:+ Error e).

(** [reload], given what [ioutil.ReadFile(pacLocalPath)] returns. *)
Definition reload (h : pacHandler) (readFile : bytes * option error)
  : pacHandler * option error :=
  match readFile with
  | (_, Some e) => (h, Some (reloadError e))
  | (data, None) => ({| pacData := data |}, None)
  end.

Definition enableArgv (flagBinPath pacURL : string) : list string :=
  [flagBinPath; "systemproxy"; "--url"; pacURL].

(** [enableSystemProxy]: the command it starts, and its verdict on what the
    start gave. *)
Definition enableSystemProxy (flagBinPath pacURL : string)
    (os : list string -> CmdOutcome) : list Effect * option error :=
  let brookCmd := enableArgv flagBinPath pacURL in
  let out := os brookCmd in
  ([ExecStart brookCmd],
   match startErr out with
   | Some e => Some e
   | None =>
       if negb (String.length (output out) =? 0)%nat
       then Some (errors_New (output out))
       else None
   end).

(** *** The handler *)

Lemma prefix_pac uri :
  String.prefix "/pac" uri = true <-> exists rest, uri = "/pac" +:+ rest.
Proof.
  rewrite String.prefix_correct. split.
  - intros H.
    destruct uri as [ | a [ | b [ | c [ | d rest]]]]; try discriminate H.
    cbn in H. injection H as -> -> -> -> _. by exists rest.
  - intros [rest ->]. cbn. by destruct rest.
Qed.

(** C6: a request whose URI begins with [/pac], query string or not, is
    answered 200 with the stored blob; any other is answered 404 with an
    empty body; the handler's blob is the same afterwards. *)
Theorem ServeHTTP_pac_or_not_found h uri :
  ((exists rest, uri = "/pac" +:+ rest) ->
   ServeHTTP h uri newResponse
   = (h, {| status := Some StatusOK; body := pacData h |})) /\
  (~ (exists rest, uri = "/pac" +:+ rest) ->
   ServeHTTP h uri newResponse
   = (h, {| status := Some StatusNotFound; body := [] |})).
Proof.
  unfold ServeHTTP. split; intros H.
  - apply prefix_pac in H. by rewrite H.
  - destruct (String.prefix "/pac" uri) eqn:E; [ | done ].
    exfalso. apply H, prefix_pac, E.
Qed.

Lemma ServeHTTP_pac_or_not_found_witness :
  ServeHTTP {| pacData := ["x"%byte] |} "/pac?ts=1700000000" newResponse
  = ({| pacData := ["x"%byte] |}, {| status := Some 200; body := ["x"%byte] |}) /\
  ServeHTTP {| pacData := ["x"%byte] |} "/index.html" newResponse
  = ({| pacData := ["x"%byte] |}, {| status := Some 404; body := [] |}).
Proof.
  split.
  - apply (proj1 (ServeHTTP_pac_or_not_found {| pacData := ["x"%byte] |} "/pac?ts=1700000000")).
    by exists "?ts=1700000000".
  - apply (proj2 (ServeHTTP_pac_or_not_found {| pacData := ["x"%byte] |} "/index.html")).
    intros [rest H]. discriminate H.
Defined.

(** *** The toggle command *)

(** C5: the call fails exactly when the start fails or the buffer holds
    output; silence after a good start is success, and output after a good
    start is returned as an error that prints as that output. *)
Theorem enableSystemProxy_error_iff bin url os :
  let out := os (enableArgv bin url) in
  let r := (enableSystemProxy bin url os).2 in
  (r <> None <-> startErr out <> None \/ output out <> "") /\
  (startErr out = None -> output out = "" -> r = None) /\
  (startErr out = None -> output out <> "" ->
   exists e, r = Some e /\ Error e = output out).
Proof.
  intros out r. subst out r. unfold enableSystemProxy. simpl.
  destruct (startErr (os (enableArgv bin url))) as [e | ].
  - split; [ split; [ by left | done ] | done ].
  - destruct (output (os (enableArgv bin url))) as [ | a rest] eqn:E; simpl.
    + split; [ split; [ done | by intros [ | ] ] | done ].
    + split; [ split; [ by right | done ] | ].
      split; [ done | intros _ _; by eexists ].
Qed.

Lemma enableSystemProxy_error_iff_witness :
  (enableSystemProxy "brook" "http://127.0.0.1:4000/pac"
     (fun _ => {| startErr := None; output := "" |})).2 = None /\
  exists e,
    (enableSystemProxy "brook" "http://127.0.0.1:4000/pac"
       (fun _ => {| startErr := None; output := "usage: brook" |})).2 = Some e /\
    Error e = "usage: brook".
Proof.
  split.
  - apply (proj1 (proj2 (enableSystemProxy_error_iff "brook" "http://127.0.0.1:4000/pac"
             (fun _ => {| startErr := None; output := "" |})))); reflexivity.
  - apply (proj2 (proj2 (enableSystemProxy_error_iff "brook" "http://127.0.0.1:4000/pac"
             (fun _ => {| startErr := None; output := "usage: brook" |}))));
      [ reflexivity | discriminate ].
Defined.

End Pac.

(** * Start-up: [main] up to its select *)

Module Startup.

Import Search Pac.

(** A computation of [main] leaves a trace and either goes on with a value
    or ends the process ([log.Fatal] exits with 1, a [return] with 0). *)
Inductive Outcome (A : Type) :=
| Continue (a : A)
| Exit (code : nat).
Arguments Continue {A} a.
Arguments Exit {A} code.

Definition M (A : Type) : Type := list Effect * Outcome A.

#[export] Instance M_ret : MRet M := fun A a => ([], Continue a).

#[export] Instance M_bind : MBind M := fun A B f m =>
  match m with
  | (t, Continue a) => let '(t', r) := f a in (t ++ t', r)
  | (t, Exit code) => (t, Exit code)
  end.

Definition tell (e : Effect) : M unit := ([e], Continue tt).
Definition tells (es : list Effect) : M unit := (es, Continue tt).
Definition exit {A} (code : nat) : M A := ([], Exit code).
Definition Fatal {A} (v : Arg) : M A := ([LogFatal v], Exit 1).
Definition Fatalf {A} (format : string) (args : list Arg) : M A :=
  ([LogFatalf format args], Exit 1).

(** Flags after [flag.Parse] and the answers of the operating system to
    each question start-up may ask. *)
Record Env := {
  flagServer : string;
  flagPassword : string;
  flagBinPath : string;
  flagPAC : string;
  flagUpdate : bool;
  brookBinFile : string;                  (* after [init] *)
  filepath_Join : string -> string -> string;
  absDir : string * option error;         (* filepath.Abs(filepath.Dir(os.Args[0])) *)
  tree : ReadDir;                         (* what lies below that directory *)
  statPac : option error;                 (* os.Stat(pacLocalPath) *)
  os_IsExist : error -> bool;
  httpGet : option error;                 (* http.Get(flagPAC) *)
  readAll : bytes * option error;         (* ioutil.ReadAll(rsp.Body) *)
  writeFile : option error;               (* ioutil.WriteFile(pacLocalPath, ...) *)
  listen : string * option error;         (* ls.Addr().String(), error of net.Listen *)
  readFile : bytes * option error;        (* ioutil.ReadFile(pacLocalPath) *)
  exec : list string -> CmdOutcome;
  newWatcher : option error               (* fsnotify.NewWatcher() *)
}.

Definition notNil (e : option error) : bool :=
  match e with Some _ => true | None => false end.

Definition Exists (stat : option error) (IsExist : error -> bool) : bool :=
  match stat with
  | Some e => if IsExist e then true else false
  | None => true
  end.

(** What the goroutines of the concurrent phase share when start-up is
    through: the handler, the listener's address, the binary, the server
    flags, and [main]'s variable [err], which the child's goroutine reads. *)
Record Started := {
  ph : pacHandler;
  addr : string;
  bin : string;
  server : string;
  password : string;
  err : option error
}.

(** Lines 139-155: the binary, searched for when [-bin] is not given. *)
Definition findBinary (env : Env) : M string :=
  if String.eqb "" (flagBinPath env) then
    let '(dir, e) := absDir env in
    match e with
    | Some e => Fatalf "Can't get current diretory: %v" [AErr (Some e)]
    | None =>
        let r := searchExecutableFile (filepath_Join env) (brookBinFile env) dir (tree env) in
        tells (map (fun c => ReadDirCall c.1) (Search.reads r));;
        match Search.err r with
        | Some _ => Fatal (AStr "Can't find brook binary file")
        | None =>
            if String.eqb "" (Search.path r)
            then Fatal (AStr "brook binary file not found")
            else mret (Search.path r)
        end
    end
  else mret (flagBinPath env).

(** Lines 160-181: the local copy of the PAC file, downloaded when absent
    or when [-update] is given. *)
Definition fetchPac (env : Env) (pac : string) : M unit :=
  if negb (Exists (statPac env) (os_IsExist env)) || flagUpdate env then
    tell (LogPrintf "Downloading pac file from %s ..." [AStr pacLocalPath]);;
    tell (HttpGet pac);;
    match httpGet env with
    | Some e => Fatalf "Can't download pac file: %v" [AErr (Some e)]
    | None =>
        let '(data, e) := readAll env in
        if notNil e || (0 =? length data)%nat then
          Fatalf "Download pac file error: %v" [AErr e]
        else
          tell (WriteFile pacLocalPath data);;
          match writeFile env with
          | Some e => Fatalf "Save pac file error: %v" [AErr (Some e)]
          | None => mret tt
          end
    end
  else
    tell (LogPrintf
            "Using the cached pac file, run with -update argument to force update the pac file"
            []).

(** Lines 183-292: the listener, the first load of the PAC blob, the
    serving goroutine, the system proxy, then the watcher and the child. *)
Definition launch (env : Env) (flagBinPath : string) : M Started :=
  (* Launch local http server to serve pac file *)
  tell (NetListen "127.0.0.1:0");;
  let '(lsAddr, e) := listen env in
  match e with
  | Some e => Fatalf "Serve http error: %v" [AErr (Some e)]
  | None =>
      tell (ReadFile pacLocalPath);;
      let '(ph, e) := reload {| pacData := [] |} (readFile env) in
      match e with
      | Some e => Fatal (AErr (Some e))
      | None =>
          tell (Go ServeLoop);;
          (* Enable system proxy *)
          tell (LogPrint (AStr "Enable system proxy ..."));;
          let '(started, e) :=
            enableSystemProxy flagBinPath ("http://" +:+ lsAddr +:+ "/pac") (exec env) in
          tells started;;
          match e with
          | Some e => Fatalf "Enable system proxy error: %v" [AErr (Some e)]
          | None =>
              (* Watch proxy config changed *)
              tell NewWatcher;;
              let err := newWatcher env in
              match err with
              | Some e => Fatalf "Can't watch pac file: %v" [AErr (Some e)]
              | None =>
                  tell (Go WatchLoop);;
                  tell (WatcherAdd pacLocalPath);;
                  tell (Go BrookWait);;
                  tell SignalNotify;;
                  mret {| ph := ph; addr := lsAddr; bin := flagBinPath;
                          server := flagServer env; password := flagPassword env;
                          err := err |}
              end
          end
      end
  end.

(** [main], lines 125-292. *)
Definition main_startup (env : Env) : M Started :=
  if String.eqb "" (flagServer env) || String.eqb "" (flagPassword env) then
    tell PrintDefaults;; exit 0
  else
    flagBinPath ← findBinary env;
    let flagPAC := if String.eqb "" (flagPAC env) then defaultPAC else flagPAC env in
    fetchPac env flagPAC;;
    launch env flagBinPath.

(** The trace of start-up and whether it ended the process. *)
Definition trace (env : Env) : list Effect := (main_startup env).1.
Definition outcome (env : Env) : Outcome Started := (main_startup env).2.

(** A host on which everything goes well: the binary is given, the PAC
    file is cached, and the commands start in silence. *)
Definition quietHost : Env := {|
  flagServer := "example.net:9999";
  flagPassword := "secret";
  flagBinPath := "/usr/local/bin/brook";
  flagPAC := "";
  flagUpdate := false;
  brookBinFile := "brook";
  filepath_Join := joinSlash;
  absDir := ("/opt/brooktool", None);
  tree := ReadDirOk [];
  statPac := None;
  os_IsExist := fun _ => false;
  httpGet := None;
  readAll := (["p"%byte], None);
  writeFile := None;
  listen := ("127.0.0.1:40000", None);
  readFile := (["p"%byte], None);
  exec := fun _ => {| startErr := None; output := "" |};
  newWatcher := None
|}.

(** *** The phases of start-up and their effects *)

Definition isSearchEffect (e : Effect) : Prop :=
  match e with
  | ReadDirCall _ | LogFatal _ | LogFatalf _ _ => True
  | _ => False
  end.

Definition isFetchEffect (e : Effect) : Prop :=
  match e with
  | LogPrintf _ _ | HttpGet _ | WriteFile _ _ | LogFatalf _ _ => True
  | _ => False
  end.

(** The enable command started and the buffer held output when
    [enableSystemProxy] looked at it. *)
Definition enableChatty (env : Env) (argv : list string) : Prop :=
  In (ExecStart argv) (trace env) /\
  startErr (exec env argv) = None /\
  output (exec env argv) <> "".

Definition noisyHost : Env := {|
  flagServer := "example.net:9999";
  flagPassword := "secret";
  flagBinPath := "/usr/local/bin/brook";
  flagPAC := "";
  flagUpdate := false;
  brookBinFile := "brook";
  filepath_Join := joinSlash;
  absDir := ("/opt/brooktool", None);
  tree := ReadDirOk [];
  statPac := None;
  os_IsExist := fun _ => false;
  httpGet := None;
  readAll := (["p"%byte], None);
  writeFile := None;
  listen := ("127.0.0.1:40000", None);
  readFile := (["p"%byte], None);
  exec := fun _ => {| startErr := None; output := "systemproxy: not supported" |};
  newWatcher := None
|}.

(** A first run on a host that serves an empty PAC file. *)
Definition emptyPacHost : Env := {|
  flagServer := "example.net:9999";
  flagPassword := "secret";
  flagBinPath := "/usr/local/bin/brook";
  flagPAC := "";
  flagUpdate := false;
  brookBinFile := "brook";
  filepath_Join := joinSlash;
  absDir := ("/opt/brooktool", None);
  tree := ReadDirOk [];
  statPac := Some (errorString "stat ./pac.txt: no such file or directory");
  os_IsExist := fun _ => false;
  httpGet := None;
  readAll := ([], None);
  writeFile := None;
  listen := ("127.0.0.1:40000", None);
  readFile := ([], None);
  exec := fun _ => {| startErr := None; output := "" |};
  newWatcher := None
|}.

Lemma findBinary_effects env : Forall isSearchEffect (findBinary env).1.
Proof.
  unfold findBinary.
  destruct (String.eqb "" (flagBinPath env)); [ | by constructor ].
  destruct (absDir env) as [dir [e | ]]; [ by repeat constructor | ].
  assert (Hreads : Forall isSearchEffect
            (map (fun c : string * option error => ReadDirCall c.1)
               (Search.reads
                  (searchExecutableFile (filepath_Join env) (brookBinFile env) dir (tree env))))).
  { apply Forall_forall. intros e He. apply list_elem_of_fmap in He as (c & -> & _). done. }
  unfold tells, Fatal. cbn.
  destruct (Search.err _); cbn; [ apply Forall_app; split; [done | by repeat constructor] | ].
  destruct (Search.path _); cbn;
    apply Forall_app; split; try done; by repeat constructor.
Qed.

Lemma fetchPac_effects env pac : Forall isFetchEffect (fetchPac env pac).1.
Proof.
  unfold fetchPac, tell, Fatalf.
  destruct (negb _ || _); cbn; [ | by repeat constructor ].
  destruct (httpGet env); cbn; [ by repeat constructor | ].
  destruct (readAll env) as [data e].
  destruct (notNil e || _); cbn; [ by repeat constructor | ].
  destruct (writeFile env); cbn; by repeat constructor.
Qed.

Lemma M_bind_unfold {A B} (m : M A) (f : A -> M B) :
  m ≫= f =
  match m with
  | (t, Continue a) => (t ++ (f a).1, (f a).2)
  | (t, Exit code) => (t, Exit code)
  end.
Proof.
  destruct m as [t [a | c]]; [ | done ].
  unfold mbind, M_bind. by destruct (f a).
Qed.

Lemma main_startup_phases env :
  String.eqb "" (flagServer env) || String.eqb "" (flagPassword env) = false ->
  main_startup env =
  match findBinary env with
  | (t1, Exit c) => (t1, Exit c)
  | (t1, Continue flagBinPath) =>
      match fetchPac env (if String.eqb "" (flagPAC env) then defaultPAC else flagPAC env) with
      | (t2, Exit c) => (t1 ++ t2, Exit c)
      | (t2, Continue _) => (t1 ++ t2 ++ (launch env flagBinPath).1, (launch env flagBinPath).2)
      end
  end.
Proof.
  intros Hflags. unfold main_startup. rewrite Hflags, M_bind_unfold.
  destruct (findBinary env) as [t1 [b | c]]; [ | done ].
  rewrite M_bind_unfold.
  by destruct (fetchPac env _) as [t2 [[] | c]].
Qed.

Definition isLaunchEffect (e : Effect) : Prop :=
  match e with
  | HttpGet _ | WriteFile _ _ | ReadDirCall _ | PrintDefaults => False
  | _ => True
  end.

(** Membership in an explicit trace, case by case. *)
Ltac in_cases H :=
  cbn in H;
  repeat (destruct H as [H | H]; [ try discriminate H | ]);
  try contradiction.

Lemma not_in_kind (P : Effect -> Prop) (e : Effect) (t : list Effect) :
  Forall P t -> ~ P e -> ~ In e t.
Proof.
  intros Hall Hne Hin. apply Hne.
  rewrite Forall_forall in Hall. by apply Hall, list_elem_of_In.
Qed.

(** [Hin] puts an effect in a trace whose effects are all of another kind. *)
Ltac wrong_kind Hall Hin :=
  exfalso; revert Hin; apply (not_in_kind _ _ _ Hall); exact (fun H => H).

Lemma launch_effects env b : Forall isLaunchEffect (launch env b).1.
Proof.
  unfold launch, tell, tells, Fatal, Fatalf, reload, enableSystemProxy.
  destruct (listen env) as [a [e | ]]; cbn; [ by repeat constructor | ].
  destruct (readFile env) as [data [e | ]]; cbn; [ by repeat constructor | ].
  destruct (startErr _); cbn; [ by repeat constructor | ].
  destruct (negb _); cbn; [ by repeat constructor | ].
  destruct (newWatcher env); cbn; by repeat constructor.
Qed.

(** When the enable command of [launch] starts and prints, [launch] ends
    there. *)
Lemma launch_chatty env b argv :
  In (ExecStart argv) (launch env b).1 ->
  startErr (exec env argv) = None -> output (exec env argv) <> "" ->
  launch env b =
  ([NetListen "127.0.0.1:0"; ReadFile pacLocalPath; Go ServeLoop;
    LogPrint (AStr "Enable system proxy ..."); ExecStart argv;
    LogFatalf "Enable system proxy error: %v"
      [AErr (Some (errors_New (output (exec env argv))))]],
   Exit 1).
Proof.
  unfold launch, tell, tells, Fatal, Fatalf, reload, enableSystemProxy.
  destruct (listen env) as [a [e | ]]; cbn; [ intros Hin; in_cases Hin | ].
  destruct (readFile env) as [data [e | ]]; cbn; [ intros Hin; in_cases Hin | ].
  intros Hin Hs Ho.
  assert (Hargv : argv = enableArgv b ("http://" +:+ a +:+ "/pac")).
  { destruct (startErr (exec env (enableArgv b _))); [ in_cases Hin; by injection Hin | ].
    destruct (negb _); [ in_cases Hin; by injection Hin | ].
    destruct (newWatcher env); in_cases Hin; by injection Hin. }
  subst argv. rewrite Hs.
  destruct (output _) as [ | c rest]; [ done | ]. by cbn.
Qed.

(** When [fetchPac] downloads and the body fails to read or is empty,
    [fetchPac] ends there. *)
Lemma fetchPac_download env pac url :
  In (HttpGet url) (fetchPac env pac).1 -> httpGet env = None ->
  notNil (readAll env).2 = true \/ (readAll env).1 = [] ->
  fetchPac env pac =
  ([LogPrintf "Downloading pac file from %s ..." [AStr pacLocalPath]; HttpGet pac;
    LogFatalf "Download pac file error: %v" [AErr (readAll env).2]],
   Exit 1).
Proof.
  unfold fetchPac, tell, Fatalf.
  destruct (negb _ || _); cbn; [ | intros Hin; in_cases Hin ].
  intros _ -> Hbody. destruct (readAll env) as [data e]; cbn in *.
  destruct Hbody as [-> | ->]; [ done | ]. by rewrite orb_true_r.
Qed.


(** The reading of C7 that the code does not meet: no goroutine at all was
    launched when start-up aborts. *)
Definition noWorkerStarted (t : list Effect) : Prop :=
  forall g, ~ In (Go g) t.

Definition noisyArgv : list string :=
  enableArgv "/usr/local/bin/brook" "http://127.0.0.1:40000/pac".

Ltac in_trace := cbv; repeat (first [ left; reflexivity | right ]).

Lemma noisyHost_chatty : enableChatty noisyHost noisyArgv.
Proof.
  split; [ in_trace | split; [ reflexivity | discriminate ] ].
Defined.



(** C9: a download whose body is empty ends start-up in the same
    [log.Fatalf] as a body that fails to read, and the local file is not
    written. *)
Theorem empty_download_is_fatal env url :
  In (HttpGet url) (trace env) -> httpGet env = None ->
  notNil (readAll env).2 = true \/ (readAll env).1 = [] ->
  outcome env = Exit 1 /\
  (exists pre,
      trace env = pre ++ [LogFatalf "Download pac file error: %v" [AErr (readAll env).2]]) /\
  (forall name data, ~ In (WriteFile name data) (trace env)).
Proof.
  intros Hin Hget Hbody. unfold outcome, trace in *.
  destruct (String.eqb "" (flagServer env) || String.eqb "" (flagPassword env)) eqn:Hflags.
  { unfold main_startup in Hin. rewrite Hflags in Hin. in_cases Hin. }
  rewrite main_startup_phases in * by done.
  pose proof (findBinary_effects env) as H1.
  destruct (findBinary env) as [t1 [b | c]]; cbn in H1; [ | wrong_kind H1 Hin ].
  pose proof (fetchPac_download env (if String.eqb "" (flagPAC env) then defaultPAC
                                     else flagPAC env) url) as H2.
  pose proof (launch_effects env b) as H3.
  destruct (fetchPac env _) as [t2 [[] | c]]; cbn in Hin.
  - rewrite !in_app_iff in Hin. destruct Hin as [Hin | [Hin | Hin]];
      [ wrong_kind H1 Hin | by specialize (H2 Hin Hget Hbody) | wrong_kind H3 Hin ].
  - rewrite in_app_iff in Hin. destruct Hin as [Hin | Hin]; [ wrong_kind H1 Hin | ].
    specialize (H2 Hin Hget Hbody). injection H2 as -> ->. cbn.
    split; [ done | split ].
    + eexists (t1 ++ [_; _]). by rewrite <- app_assoc.
    + intros name data Hw. rewrite in_app_iff in Hw. destruct Hw as [Hw | Hw];
        [ wrong_kind H1 Hw | in_cases Hw ].
Qed.

Lemma empty_download_is_fatal_witness :
  outcome emptyPacHost = Exit 1 /\
  (exists pre,
      trace emptyPacHost = pre ++ [LogFatalf "Download pac file error: %v" [AErr None]]) /\
  (forall name data, ~ In (WriteFile name data) (trace emptyPacHost)).
Proof.
  apply (empty_download_is_fatal emptyPacHost defaultPAC);
    [ in_trace | reflexivity | right; reflexivity ].
Defined.

(** Once the watcher exists, [main]'s variable [err] is nil for good. *)
Lemma started_err_nil env st : outcome env = Continue st -> err st = None.
Proof.
  unfold outcome.
  destruct (String.eqb "" (flagServer env) || String.eqb "" (flagPassword env)) eqn:Hflags.
  { unfold main_startup. by rewrite Hflags. }
  rewrite main_startup_phases by done.
  destruct (findBinary env) as [t1 [b | c]]; [ | done ].
  destruct (fetchPac env _) as [t2 [[] | c]]; [ | done ].
  unfold launch, tell, tells, Fatal, Fatalf, reload, enableSystemProxy. cbn.
  destruct (listen env) as [a [e | ]]; cbn; [ done | ].
  destruct (readFile env) as [data [e | ]]; cbn; [ done | ].
  destruct (startErr _); cbn; [ done | ].
  destruct (negb _); cbn; [ done | ].
  destruct (newWatcher env) eqn:Hw; cbn; [ done | ].
  by intros [= <-].
Qed.

End Startup.

(** * The concurrent phase: watcher, child and the orchestrating select *)

Module Supervisor.

Import Pac Startup.

Inductive Tid := TMain | TWatch | TBrook.

(** Where the file-watch goroutine stands (lines 228-267). *)
Inductive PcWatch :=
| WSelect                  (* 230: blocked in select *)
| WSleep (event : Event)   (* 235: time.Sleep *)
| WDrain (event : Event)   (* 236-240: the non-blocking receive, then the log line *)
| WLock                    (* 241 *)
| WCheck                   (* 242 *)
| WUnlockReturn            (* 243-244 *)
| WReload                  (* 246 *)
| WUnlockBreak             (* 247-249 *)
| WEnable                  (* 251-255 *)
| WUnlock                  (* 256 *)
| WReturned.

(** Where [main] stands after start-up (lines 294-327). *)
Inductive PcMain :=
| MSelect                  (* 294 *)
| MCancelSig               (* 298 *)
| MRecvBrook               (* 299 *)
| MCancelExit              (* 304 *)
| MLock                    (* 307 *)
| MSetClosed               (* 308 *)
| MUnlock                  (* 309 *)
| MClose                   (* 310 *)
| MDisable                 (* 313-325 *)
| MExited (code : nat).

(** Where the child's goroutine stands (lines 272-288). *)
Inductive PcBrook :=
| BStart                   (* 273-281 *)
| BSendErr                 (* 283 *)
| BWait                    (* 287: brookCmd.Wait() *)
| BSendWait (r : option error)   (* 287: the send *)
| BReturned.

(** The cases of the two selects. *)
Inductive Case := CaseEvent | CaseError | CaseDone | CaseSignal | CaseBrook.

(** What the operating system and the Go scheduler answer when a step asks:
    the ready case a select takes, the contents of the PAC file, the outcome
    of a command, the clock, the child's output so far, and what [Start] and
    [Wait] of the child return. *)
Record Answers := {
  pick : Case;
  readFile : bytes * option error;
  cmd : list string -> CmdOutcome;
  unix : Z;
  outString : string;
  startResult : option error;
  waitResult : option error
}.

(** One move: the environment delivers a file event, a watch error or a
    signal, or a goroutine takes its next step. *)
Inductive Label :=
| FsEvent (ev : Event)
| FsError (e : error)
| Deliver (sig : Signal)
| Run (t : Tid) (o : Answers).

Record State := {
  env : Started;
  handler : pacHandler;
  closed : bool;
  closeMu : bool;
  ctxDone : bool;
  lsClosed : bool;
  Events : list Event;
  Errors : list error;
  sigCh : list Signal;
  brookCh : list (option error);
  pcMain : PcMain;
  pcWatch : PcWatch;
  pcBrook : PcBrook;
  log : list (Tid * Effect)
}.

Definition set_handler (v : pacHandler) (s : State) : State :=
  {| env := env s;
     handler := v;
     closed := closed s;
     closeMu := closeMu s;
     ctxDone := ctxDone s;
     lsClosed := lsClosed s;
     Events := Events s;
     Errors := Errors s;
     sigCh := sigCh s;
     brookCh := brookCh s;
     pcMain := pcMain s;
     pcWatch := pcWatch s;
     pcBrook := pcBrook s;
     log := log s |}.

Definition set_closed (v : bool) (s : State) : State :=
  {| env := env s;
     handler := handler s;
     closed := v;
     closeMu := closeMu s;
     ctxDone := ctxDone s;
     lsClosed := lsClosed s;
     Events := Events s;
     Errors := Errors s;
     sigCh := sigCh s;
     brookCh := brookCh s;
     pcMain := pcMain s;
     pcWatch := pcWatch s;
     pcBrook := pcBrook s;
     log := log s |}.

Definition set_closeMu (v : bool) (s : State) : State :=
  {| env := env s;
     handler := handler s;
     closed := closed s;
     closeMu := v;
     ctxDone := ctxDone s;
     lsClosed := lsClosed s;
     Events := Events s;
     Errors := Errors s;
     sigCh := sigCh s;
     brookCh := brookCh s;
     pcMain := pcMain s;
     pcWatch := pcWatch s;
     pcBrook := pcBrook s;
     log := log s |}.

Definition set_ctxDone (v : bool) (s : State) : State :=
  {| env := env s;
     handler := handler s;
     closed := closed s;
     closeMu := closeMu s;
     ctxDone := v;
     lsClosed := lsClosed s;
     Events := Events s;
     Errors := Errors s;
     sigCh := sigCh s;
     brookCh := brookCh s;
     pcMain := pcMain s;
     pcWatch := pcWatch s;
     pcBrook := pcBrook s;
     log := log s |}.

Definition set_lsClosed (v : bool) (s : State) : State :=
  {| env := env s;
     handler := handler s;
     closed := closed s;
     closeMu := closeMu s;
     ctxDone := ctxDone s;
     lsClosed := v;
     Events := Events s;
     Errors := Errors s;
     sigCh := sigCh s;
     brookCh := brookCh s;
     pcMain := pcMain s;
     pcWatch := pcWatch s;
     pcBrook := pcBrook s;
     log := log s |}.

Definition set_Events (v : list Event) (s : State) : State :=
  {| env := env s;
     handler := handler s;
     closed := closed s;
     closeMu := closeMu s;
     ctxDone := ctxDone s;
     lsClosed := lsClosed s;
     Events := v;
     Errors := Errors s;
     sigCh := sigCh s;
     brookCh := brookCh s;
     pcMain := pcMain s;
     pcWatch := pcWatch s;
     pcBrook := pcBrook s;
     log := log s |}.

Definition set_Errors (v : list error) (s : State) : State :=
  {| env := env s;
     handler := handler s;
     closed := closed s;
     closeMu := closeMu s;
     ctxDone := ctxDone s;
     lsClosed := lsClosed s;
     Events := Events s;
     Errors := v;
     sigCh := sigCh s;
     brookCh := brookCh s;
     pcMain := pcMain s;
     pcWatch := pcWatch s;
     pcBrook := pcBrook s;
     log := log s |}.

Definition set_sigCh (v : list Signal) (s : State) : State :=
  {| env := env s;
     handler := handler s;
     closed := closed s;
     closeMu := closeMu s;
     ctxDone := ctxDone s;
     lsClosed := lsClosed s;
     Events := Events s;
     Errors := Errors s;
     sigCh := v;
     brookCh := brookCh s;
     pcMain := pcMain s;
     pcWatch := pcWatch s;
     pcBrook := pcBrook s;
     log := log s |}.

Definition set_brookCh (v : list (option error)) (s : State) : State :=
  {| env := env s;
     handler := handler s;
     closed := closed s;
     closeMu := closeMu s;
     ctxDone := ctxDone s;
     lsClosed := lsClosed s;
     Events := Events s;
     Errors := Errors s;
     sigCh := sigCh s;
     brookCh := v;
     pcMain := pcMain s;
     pcWatch := pcWatch s;
     pcBrook := pcBrook s;
     log := log s |}.

Definition set_pcMain (v : PcMain) (s : State) : State :=
  {| env := env s;
     handler := handler s;
     closed := closed s;
     closeMu := closeMu s;
     ctxDone := ctxDone s;
     lsClosed := lsClosed s;
     Events := Events s;
     Errors := Errors s;
     sigCh := sigCh s;
     brookCh := brookCh s;
     pcMain := v;
     pcWatch := pcWatch s;
     pcBrook := pcBrook s;
     log := log s |}.

Definition set_pcWatch (v : PcWatch) (s : State) : State :=
  {| env := env s;
     handler := handler s;
     closed := closed s;
     closeMu := closeMu s;
     ctxDone := ctxDone s;
     lsClosed := lsClosed s;
     Events := Events s;
     Errors := Errors s;
     sigCh := sigCh s;
     brookCh := brookCh s;
     pcMain := pcMain s;
     pcWatch := v;
     pcBrook := pcBrook s;
     log := log s |}.

Definition set_pcBrook (v : PcBrook) (s : State) : State :=
  {| env := env s;
     handler := handler s;
     closed := closed s;
     closeMu := closeMu s;
     ctxDone := ctxDone s;
     lsClosed := lsClosed s;
     Events := Events s;
     Errors := Errors s;
     sigCh := sigCh s;
     brookCh := brookCh s;
     pcMain := pcMain s;
     pcWatch := pcWatch s;
     pcBrook := v;
     log := log s |}.

Definition set_log (v : list (Tid * Effect)) (s : State) : State :=
  {| env := env s;
     handler := handler s;
     closed := closed s;
     closeMu := closeMu s;
     ctxDone := ctxDone s;
     lsClosed := lsClosed s;
     Events := Events s;
     Errors := Errors s;
     sigCh := sigCh s;
     brookCh := brookCh s;
     pcMain := pcMain s;
     pcWatch := pcWatch s;
     pcBrook := pcBrook s;
     log := v |}.

Definition emit (t : Tid) (es : list Effect) (s : State) : State :=
  set_log (log s ++ map (pair t) es) s.

Definition isWrite (event : Event) : bool :=
  (N.land (Op event) fsnotify_Write =? fsnotify_Write)%N.

(** fmt.Sprintf("http://%s/pac?ts=%d", ls.Addr().String(), time.Now().Unix()) *)
Definition reapplyURL (lsAddr : string) (ts : Z) : string :=
  "http://" +:+ lsAddr +:+ "/pac?ts=" +:+ pretty ts.

Arguments isWrite : simpl never.
Arguments reapplyURL : simpl never.

Definition disableArgv (flagBinPath : string) : list string :=
  [flagBinPath; "systemproxy"; "-r"].

Definition clientArgv (st : Started) : list string :=
  [bin st; "client"; "--ip"; "127.0.0.1"; "--listen"; "127.0.0.1:1080";
   "--server"; server st; "--password"; password st].

(** One step of the file-watch goroutine. *)
Definition watch (o : Answers) (s : State) : State :=
  match pcWatch s with
  | WSelect =>
      match pick o with
      | CaseEvent =>
          match Events s with
          | event :: rest =>
              let s := set_Events rest s in
              if isWrite event then set_pcWatch (WSleep event) s else s
          | [] => s
          end
      | CaseError =>
          match Errors s with
          | watchErr :: rest =>
              emit TWatch [LogPrintf "Watch pac error: %v" [AErr (Some watchErr)]]
                (set_Errors rest s)
          | [] => s
          end
      | CaseDone => if ctxDone s then set_pcWatch WReturned s else s
      | _ => s
      end
  | WSleep event => set_pcWatch (WDrain event) s
  | WDrain event =>
      (* Consume pendings write *)
      let s := match Events s with
               | _ :: rest => set_Events rest s
               | [] => s
               end in
      emit TWatch [LogPrintf "Pac file has changed, update pac config %s" [AEvent event]]
        (set_pcWatch WLock s)
  | WLock =>
      if closeMu s then s
      else emit TWatch [MuLock] (set_closeMu true (set_pcWatch WCheck s))
  | WCheck =>
      if closed s then set_pcWatch WUnlockReturn s else set_pcWatch WReload s
  | WUnlockReturn =>
      emit TWatch [MuUnlock] (set_closeMu false (set_pcWatch WReturned s))
  | WReload =>
      let '(h, e) := reload (handler s) (readFile o) in
      match e with
      | Some e =>
          emit TWatch [ReadFile pacLocalPath; LogPrint (AErr (Some e))]
            (set_pcWatch WUnlockBreak s)
      | None =>
          emit TWatch [ReadFile pacLocalPath; StorePac (pacData h)]
            (set_handler h (set_pcWatch WEnable s))
      end
  | WUnlockBreak =>
      emit TWatch [MuUnlock] (set_closeMu false (set_pcWatch WSelect s))
  | WEnable =>
      let '(started, e) :=
        enableSystemProxy (bin (env s)) (reapplyURL (addr (env s)) (unix o)) (cmd o) in
      emit TWatch
        (started ++
         [match e with
          | Some e => LogPrintf "Failed to update pac config: %v" [AErr (Some e)]
          | None => LogPrintf "Pac update successfully" []
          end])
        (set_pcWatch WUnlock s)
  | WUnlock =>
      emit TWatch [MuUnlock] (set_closeMu false (set_pcWatch WSelect s))
  | WReturned => s
  end.

(** One step of [main]. *)
Definition main (o : Answers) (s : State) : State :=
  match pcMain s with
  | MSelect =>
      match pick o with
      | CaseSignal =>
          match sigCh s with
          | recvSig :: rest =>
              emit TMain [SigRecv recvSig;
                          LogPrintf "Recv %v signal, shutting down ..." [ASignal recvSig]]
                (set_sigCh rest (set_pcMain MCancelSig s))
          | [] => s
          end
      | CaseBrook =>
          match brookCh s with
          | brookErr :: rest =>
              emit TMain [ChanRecv brookErr;
                          LogPrintf "Brook occurs an error: %v (%v)"
                            [AErr brookErr; AStr (outString o)]]
                (set_brookCh rest (set_pcMain MCancelExit s))
          | [] => s
          end
      | _ => s
      end
  | MCancelSig => emit TMain [Cancel] (set_ctxDone true (set_pcMain MRecvBrook s))
  | MRecvBrook =>
      match brookCh s with
      | v :: rest => emit TMain [ChanRecv v] (set_brookCh rest (set_pcMain MLock s))
      | [] => s
      end
  | MCancelExit => emit TMain [Cancel] (set_ctxDone true (set_pcMain MLock s))
  | MLock =>
      if closeMu s then s
      else emit TMain [MuLock] (set_closeMu true (set_pcMain MSetClosed s))
  | MSetClosed => emit TMain [SetClosed] (set_closed true (set_pcMain MUnlock s))
  | MUnlock => emit TMain [MuUnlock] (set_closeMu false (set_pcMain MClose s))
  | MClose => emit TMain [ListenerClose] (set_lsClosed true (set_pcMain MDisable s))
  | MDisable =>
      (* Disable system proxy *)
      let brookCmd := disableArgv (bin (env s)) in
      let out := cmd o brookCmd in
      match startErr out with
      | Some e =>
          emit TMain [LogPrint (AStr "Disable system proxy ..."); ExecStart brookCmd;
                      LogFatalf "Disable system proxy error: %v" [AErr (Some e)]]
            (set_pcMain (MExited 1) s)
      | None =>
          if negb (String.length (output out) =? 0)%nat then
            emit TMain [LogPrint (AStr "Disable system proxy ..."); ExecStart brookCmd;
                        LogFatalf "Disable system proxy error: %v" [AStr (output out)]]
              (set_pcMain (MExited 1) s)
          else
            emit TMain [LogPrint (AStr "Disable system proxy ..."); ExecStart brookCmd;
                        LogPrintf "Bye ..." []]
              (set_pcMain (MExited 0) s)
      end
  | MExited _ => s
  end.

(** [brookCh <- v] on the channel of capacity 1. *)
Definition send (v : option error) (s : State) : State :=
  if (length (brookCh s) <? 1)%nat
  then emit TBrook [ChanSend v] (set_brookCh (brookCh s ++ [v]) (set_pcBrook BReturned s))
  else s.

(** One step of the child's goroutine. *)
Definition brook (o : Answers) (s : State) : State :=
  match pcBrook s with
  | BStart =>
      let startErr := startResult o in
      match startErr with
      | Some _ => emit TBrook [ExecStart (clientArgv (env s))] (set_pcBrook BSendErr s)
      | None =>
          emit TBrook [ExecStart (clientArgv (env s));
                       LogPrintf "Brook client is start with address 127.0.0.1:1080" []]
            (set_pcBrook BWait s)
      end
  | BSendErr => send (err (env s)) s
  | BWait => set_pcBrook (BSendWait (waitResult o)) s
  | BSendWait r => send r s
  | BReturned => s
  end.

Definition step (l : Label) (s : State) : State :=
  match l with
  | FsEvent ev => set_Events (Events s ++ [ev]) s
  | FsError e => set_Errors (Errors s ++ [e]) s
  | Deliver sig =>
      match sigCh s with
      | [] => set_sigCh [sig] s
      | _ :: _ => s
      end
  | Run TMain o => main o s
  | Run TWatch o => watch o s
  | Run TBrook o => brook o s
  end.

Definition run (sched : list Label) (s : State) : State :=
  fold_left (fun s l => step l s) sched s.

(** The state [main] leaves when it reaches its select. *)
Definition init (st : Started) : State := {|
  env := st;
  handler := ph st;
  closed := false;
  closeMu := false;
  ctxDone := false;
  lsClosed := false;
  Events := [];
  Errors := [];
  sigCh := [];
  brookCh := [];
  pcMain := MSelect;
  pcWatch := WSelect;
  pcBrook := BStart;
  log := []
|}.

(** *** Runs *)

Lemma run_app (a b : list Label) (s : State) : run (a ++ b) s = run b (run a s).
Proof. apply fold_left_app. Qed.

(** A state some schedule leads to from the end of some start-up. *)
Definition reachable (s : State) : Prop :=
  exists st sched, s = run sched (init st).

Lemma reachable_run sched s : reachable s -> reachable (run sched s).
Proof. intros (st & before & ->). exists st, (before ++ sched). by rewrite run_app. Qed.

(** An invariant of the steps holds in every reachable state. *)
Lemma reachable_ind (P : State -> Prop) :
  (forall st, P (init st)) -> (forall l s, P s -> P (step l s)) ->
  forall s, reachable s -> P s.
Proof.
  intros Hinit Hstep s (st & sched & ->).
  assert (H : forall s, P s -> P (run sched s)); [ | by apply H ].
  induction sched as [ | l sched IH]; intros s Hs; [ done | ].
  cbn. by apply IH, Hstep.
Qed.

(** *** The shutdown gate *)

(** The watcher holds [closeMu]: from its check of [closed] to its unlock. *)
Definition critW (pc : PcWatch) : bool :=
  match pc with
  | WCheck | WUnlockReturn | WReload | WUnlockBreak | WEnable | WUnlock => true
  | _ => false
  end.

(** The watcher has passed the check and is reloading or reapplying. *)
Definition actW (pc : PcWatch) : bool :=
  match pc with
  | WReload | WUnlockBreak | WEnable | WUnlock => true
  | _ => false
  end.

(** [main] holds [closeMu]. *)
Definition critM (pc : PcMain) : bool :=
  match pc with
  | MSetClosed | MUnlock => true
  | _ => false
  end.

(** [main] has set [closed]. *)
Definition afterSet (pc : PcMain) : bool :=
  match pc with
  | MUnlock | MClose | MDisable | MExited _ => true
  | _ => false
  end.

(** A reload or a reapply: the watcher stores a blob or starts the enable
    command (the only command it starts). *)
Definition isReapply (te : Tid * Effect) : bool :=
  match te with
  | (TWatch, StorePac _) | (TWatch, ExecStart _) => true
  | _ => false
  end.

Record Gate (s : State) : Prop := {
  gate_mu : closeMu s = critW (pcWatch s) || critM (pcMain s);
  gate_excl : critW (pcWatch s) && critM (pcMain s) = false;
  gate_closed : closed s = afterSet (pcMain s);
  gate_act : closed s = true -> actW (pcWatch s) = false
}.

(** Case analysis on the matches of the goal, innermost first. *)
Ltac branch :=
  repeat (match goal with
          | |- context [match ?x with _ => _ end] =>
              lazymatch x with
              | context [match _ with _ => _ end] => fail
              | _ => destruct x eqn:?
              end
          end; cbn in *).

(** Every step, on a state given field by field. *)
Ltac step_cases l s :=
  destruct s as [e h c mu dn lsc evs errs sg bch pm pw pb lg];
  destruct l as [? | ? | ? | [ | | ] ?];
  unfold step, main, watch, brook, send, emit; cbn in *.

Lemma Gate_init st : Gate (init st).
Proof. by split. Qed.

Lemma Gate_step l s : Gate s -> Gate (step l s).
Proof.
  intros [Hmu Hex Hcl Hact].
  step_cases l s; try by split.
  - destruct sg; by split.
  - destruct pm; branch; split; cbn in *; subst; by destruct pw.
  - destruct pw; branch; split; cbn in *; subst;
      first [ done | by destruct pm | destruct pm; cbn in *; intuition congruence ].
  - destruct pb; branch; by split.
Qed.

Lemma Gate_reachable s : reachable s -> Gate s.
Proof. apply reachable_ind; [ apply Gate_init | apply Gate_step ]. Qed.

(** What a run adds to the log holds no reload and no reapply. *)
Definition quietSince (s s' : State) : Prop :=
  exists more,
    log s' = log s ++ more /\ forallb (fun te => negb (isReapply te)) more = true.

Lemma closed_step l s :
  Gate s -> closed s = true ->
  closed (step l s) = true /\ handler (step l s) = handler s /\ quietSince s (step l s).
Proof.
  intros [Hmu Hex Hcl Hact] Hc. unfold quietSince.
  step_cases l s; specialize (Hact Hc); clear Hmu Hex Hcl; subst c.
  - repeat split. exists []. by rewrite app_nil_r.
  - repeat split. exists []. by rewrite app_nil_r.
  - destruct sg; repeat split; exists []; by rewrite app_nil_r.
  - destruct pm; branch; (split; [ done | split; [ done | ] ]);
      first [ by exists [] ; rewrite app_nil_r | by eexists ].
  - destruct pw; try discriminate; branch; (split; [ done | split; [ done | ] ]);
      first [ by exists [] ; rewrite app_nil_r | by eexists ].
  - destruct pb; branch; (split; [ done | split; [ done | ] ]);
      first [ by exists [] ; rewrite app_nil_r | by eexists ].
Qed.

Lemma closed_run sched s :
  reachable s -> closed s = true ->
  closed (run sched s) = true /\ handler (run sched s) = handler s /\
  quietSince s (run sched s).
Proof.
  revert s. induction sched as [ | l sched IH]; intros s Hr Hc.
  - repeat split; [ done | ]. exists []. by rewrite app_nil_r.
  - destruct (closed_step l s (Gate_reachable s Hr) Hc) as (Hc' & Hh & more & Hlog & Hq).
    destruct (IH (step l s) (reachable_run [l] s Hr) Hc') as (Hc'' & Hh' & more' & Hlog' & Hq').
    change (run (l :: sched) s) with (run sched (step l s)).
    split; [ done | split; [ congruence | ] ].
    exists (more ++ more'). rewrite Hlog', Hlog, <- app_assoc. split; [ done | ].
    by rewrite forallb_app, Hq, Hq'.
Qed.

(** C3: once [closed] is true, whatever runs afterwards leaves the handler's
    blob as it is and adds no reload and no reapply to the log, whatever
    events are queued; and while the watcher is between its check of
    [closed] and its unlock it holds [closeMu] with [main] outside its own
    locked region, so [closed] is still false when it reloads and
    reapplies. *)
Theorem closed_gate_stops_reload st before after :
  let s := run before (init st) in
  let s' := run after s in
  (closed s = true -> handler s' = handler s /\ quietSince s s') /\
  (critW (pcWatch s) = true -> closeMu s = true /\ critM (pcMain s) = false) /\
  (actW (pcWatch s) = true -> closed s = false).
Proof.
  intros s s'.
  assert (Hr : reachable s) by (by exists st, before).
  destruct (Gate_reachable s Hr) as [Hmu Hex Hcl Hact].
  split; [ | split ].
  - intros Hc. by destruct (closed_run after s Hr Hc) as (_ & ? & ?).
  - intros Hw. rewrite Hw in *. cbn in *. by rewrite Hmu, Hex.
  - intros Ha. destruct (closed s); [ | done ]. rewrite Hact in Ha; done.
Qed.

(** *** The shutdown path of [main] *)

Definition isLogLine (e : Effect) : bool :=
  match e with
  | LogPrint _ | LogPrintf _ _ | LogFatal _ | LogFatalf _ _ => true
  | _ => false
  end.

Definition isMain (te : Tid * Effect) : bool :=
  match te.1 with TMain => true | _ => false end.

(** What [main] has done so far, log lines apart, oldest first. *)
Definition actsOf (l : list (Tid * Effect)) : list Effect :=
  List.filter (fun e => negb (isLogLine e)) (map snd (List.filter isMain l)).

Definition mainActs (s : State) : list Effect := actsOf (log s).

(** The teardown: the gate, the listener, the disable command. *)
Definition teardown (flagBinPath : string) : list Effect :=
  [MuLock; SetClosed; MuUnlock; ListenerClose; ExecStart (disableArgv flagBinPath)].

(** The two ways [main] wakes: a signal, then cancel, then the wait for the
    child's notification; or the child's notification, then cancel. *)
Definition woken (pre : list Effect) : Prop :=
  (exists sig v, pre = [SigRecv sig; Cancel; ChanRecv v]) \/
  (exists v, pre = [ChanRecv v; Cancel]).

(** How many steps of the teardown [main] has taken. *)
Definition torn (pc : PcMain) : option nat :=
  match pc with
  | MLock => Some 0
  | MSetClosed => Some 1
  | MUnlock => Some 2
  | MClose => Some 3
  | MDisable => Some 4
  | MExited _ => Some 5
  | _ => None
  end.

Definition progress (s : State) : Prop :=
  match pcMain s with
  | MSelect => mainActs s = []
  | MCancelSig => exists sig, mainActs s = [SigRecv sig]
  | MRecvBrook => exists sig, mainActs s = [SigRecv sig; Cancel]
  | MCancelExit => exists v, mainActs s = [ChanRecv v]
  | pc =>
      exists pre n,
        woken pre /\ torn pc = Some n /\
        mainActs s = pre ++ firstn n (teardown (bin (env s)))
  end.

Arguments actsOf : simpl never.

Lemma actsOf_app l1 l2 : actsOf (l1 ++ l2) = actsOf l1 ++ actsOf l2.
Proof. unfold actsOf. by rewrite List.filter_app, map_app, List.filter_app. Qed.

Lemma actsOf_other t es : t <> TMain -> actsOf (map (pair t) es) = [].
Proof.
  intros Ht. induction es as [ | e es IH]; [ done | ].
  unfold actsOf in *. cbn. by destruct t.
Qed.

Lemma main_untouched l s :
  (forall o, l <> Run TMain o) ->
  pcMain (step l s) = pcMain s /\ env (step l s) = env s /\
  mainActs (step l s) = mainActs s.
Proof.
  intros Hl. unfold mainActs.
  destruct l as [? | ? | ? | [ | | ] o]; [ | | | by destruct (Hl o) | | ];
    unfold step, watch, brook, send, emit; cbn.
  - done.
  - done.
  - by destruct (sigCh s).
  - destruct (pcWatch s); repeat case_match; cbn;
      rewrite ?actsOf_app, ?actsOf_other by done; unfold actsOf; cbn;
      by rewrite ?app_nil_r.
  - destruct (pcBrook s); repeat case_match; cbn;
      rewrite ?actsOf_app, ?actsOf_other by done; unfold actsOf; cbn;
      by rewrite ?app_nil_r.
Qed.

Lemma progress_step l s : progress s -> progress (step l s).
Proof.
  destruct l as [ev | e | sig | [ | | ] o].
  1-3, 5-6: unfold progress;
    match goal with |- _ -> match pcMain (step ?l _) with _ => _ end =>
      destruct (main_untouched l s) as (-> & -> & ->); done
    end.
  unfold progress, mainActs, step, main, emit.
  destruct (pcMain s) eqn:HM; cbn; branch; rewrite ?HM, ?actsOf_app;
    unfold actsOf; cbn; try done.
  all: first
    [ intros ->; by eexists
    | intros [? ->]; by eexists
    | intros [sig ->]; eexists [SigRecv sig; Cancel; ChanRecv _], 0;
      split; [ left; eauto | done ]
    | intros [v ->]; exists [ChanRecv v; Cancel], 0; split; [ right; eauto | done ]
    | intros (pre & n & Hw & [= <-] & ->); exists pre; eexists;
      split; [ done | split; [ reflexivity | by rewrite <- app_assoc ] ] ].
Qed.

Lemma progress_reachable s : reachable s -> progress s.
Proof. apply reachable_ind; [ done | apply progress_step ]. Qed.

Lemma env_step l s : env (step l s) = env s.
Proof.
  destruct l as [? | ? | ? | [ | | ] o]; unfold step, main, watch, brook, send, emit; cbn.
  - done.
  - done.
  - by destruct (sigCh s).
  - destruct (pcMain s); branch; done.
  - destruct (pcWatch s); branch; done.
  - destruct (pcBrook s); branch; done.
Qed.

Lemma env_reachable s : reachable s -> forall sched, env (run sched s) = env s.
Proof.
  intros _ sched. revert s. induction sched as [ | l sched IH]; intros s; [ done | ].
  cbn. by rewrite IH, env_step.
Qed.


(** *** The child's notification *)

(** [main] has taken the child's notification from [brookCh]. *)
Definition received (pc : PcMain) : bool :=
  match pc with
  | MSelect | MCancelSig | MRecvBrook => false
  | _ => true
  end.

(** The channel is empty until the goroutine sends, holds one value until
    [main] receives it, and is empty ever after. *)
Definition notified (s : State) : Prop :=
  match pcBrook s with
  | BReturned =>
      if received (pcMain s) then brookCh s = [] else exists v, brookCh s = [v]
  | _ => brookCh s = [] /\ received (pcMain s) = false
  end.

Lemma notified_step l s : notified s -> notified (step l s).
Proof.
  unfold notified.
  destruct s as [e h c mu dn lsc evs errs sg bch pm pw pb lg].
  destruct l as [? | ? | ? | [ | | ] o]; unfold step, main, watch, brook, send, emit;
    cbn; intros Hn; branch; simplify_eq; try done.
  all: try (destruct Hn; simplify_eq; done).
  all: try (destruct Hn; simplify_eq; eauto; done).
Qed.

Lemma notified_reachable s : reachable s -> notified s.
Proof. apply reachable_ind; [ done | apply notified_step ]. Qed.

(** *** The shutdown can always complete *)

(** Answers under which nothing fails. *)
Definition calm (c : Case) : Answers := {|
  pick := c;
  readFile := ([], None);
  cmd := fun _ => {| startErr := None; output := "" |};
  unix := 0;
  outString := "";
  startResult := None;
  waitResult := None
|}.

(** Steps the watcher needs to leave the locked region. *)
Definition rankW (pc : PcWatch) : nat :=
  match pc with
  | WCheck => 4
  | WReload => 3
  | WEnable => 2
  | WUnlockReturn | WUnlockBreak | WUnlock => 1
  | _ => 0
  end.

(** Steps the child's goroutine needs to return. *)
Definition rankB (pc : PcBrook) : nat :=
  match pc with
  | BStart => 3
  | BWait => 2
  | BSendErr | BSendWait _ => 1
  | BReturned => 0
  end.

(** Steps [main] needs to exit. *)
Definition rankM (pc : PcMain) : nat :=
  match pc with
  | MSelect => 9
  | MCancelSig => 8
  | MRecvBrook | MCancelExit => 7
  | MLock => 6
  | MSetClosed => 5
  | MUnlock => 4
  | MClose => 3
  | MDisable => 2
  | MExited _ => 0
  end.

Lemma watcher_releases n s :
  rankW (pcWatch s) <= n ->
  exists sched,
    critW (pcWatch (run sched s)) = false /\
    pcMain (run sched s) = pcMain s /\ pcBrook (run sched s) = pcBrook s.
Proof.
  revert s. induction n as [ | n IH]; intros s Hn.
  - exists []. destruct (pcWatch s) eqn:HW; cbn in *; rewrite ?HW; try done; lia.
  - destruct (critW (pcWatch s)) eqn:Hc; [ | by exists [] ].
    destruct (IH (step (Run TWatch (calm CaseSignal)) s)) as (sched & H1 & H2 & H3).
    + destruct s as [e h c mu dn lsc evs errs sg bch pm pw pb lg].
      unfold step, watch, emit; cbn in *.
      destruct pw; cbn in *; try done; branch; cbn; lia.
    + exists (Run TWatch (calm CaseSignal) :: sched).
      change (run (?l :: sched) s) with (run sched (step l s)).
      rewrite H2, H3. split; [ done | ].
      destruct s as [e h c mu dn lsc evs errs sg bch pm pw pb lg].
      unfold step, watch, emit; cbn. destruct pw; cbn; branch; done.
Qed.

Lemma brook_returns n s :
  reachable s -> rankB (pcBrook s) <= n ->
  exists sched,
    pcBrook (run sched s) = BReturned /\
    pcMain (run sched s) = pcMain s /\ pcWatch (run sched s) = pcWatch s.
Proof.
  revert s. induction n as [ | n IH]; intros s Hr Hn.
  - exists []. destruct (pcBrook s) eqn:HB; cbn in *; rewrite ?HB; try done; lia.
  - pose proof (notified_reachable s Hr) as Hch.
    destruct (IH (step (Run TBrook (calm CaseSignal)) s)) as (sched & H1 & H2 & H3).
    + by apply (reachable_run [Run TBrook (calm CaseSignal)] s).
    + destruct s as [e h c mu dn lsc evs errs sg bch pm pw pb lg].
      unfold notified, step, brook, send, emit in *; cbn in *.
      destruct pb; cbn in *; try lia; destruct Hch as [-> _]; cbn; lia.
    + exists (Run TBrook (calm CaseSignal) :: sched).
      change (run (?l :: sched) s) with (run sched (step l s)).
      rewrite H2, H3. split; [ done | ].
      destruct s as [e h c mu dn lsc evs errs sg bch pm pw pb lg].
      unfold step, brook, send, emit; cbn. destruct pb; cbn; branch; done.
Qed.

Lemma main_exits n s :
  reachable s -> critW (pcWatch s) = false -> pcBrook s = BReturned ->
  rankM (pcMain s) <= n ->
  exists sched code, pcMain (run sched s) = MExited code.
Proof.
  revert s. induction n as [ | n IH]; intros s Hr HW HB Hn.
  - exists []. destruct (pcMain s) eqn:HM; cbn in *; rewrite ?HM; try lia. by eexists.
  - pose proof (notified_reachable s Hr) as Hch.
    pose proof (Gate_reachable s Hr) as [Hmu _ _ _].
    set (sched := [Deliver SIGINT; Run TMain (calm CaseSignal)]).
    destruct (IH (run sched s)) as (more & code & Hexit).
    + by apply reachable_run.
    + destruct s as [e h c mu dn lsc evs errs sg bch pm pw pb lg].
      unfold sched, run, step, main, emit; cbn in *. destruct sg, pm; cbn; branch; done.
    + destruct s as [e h c mu dn lsc evs errs sg bch pm pw pb lg].
      unfold sched, run, step, main, emit; cbn in *. destruct sg, pm; cbn; branch; done.
    + destruct s as [e h c mu dn lsc evs errs sg bch pm pw pb lg].
      unfold notified, sched, run, step, main, emit in *; cbn in *. subst pb mu.
      rewrite HW in *. cbn in *.
      destruct sg, pm; cbn in *; try lia; try (destruct Hch as [v ->]; cbn; lia);
        branch; cbn; lia.
    + exists (sched ++ more), code. by rewrite run_app.
Qed.


(** *** What the child's goroutine sends *)

Definition isSend (te : Tid * Effect) : bool :=
  match te with
  | (_, ChanSend _) => true
  | _ => false
  end.

(** The goroutine has sent nothing until it returns, and one value then. *)
Definition sentOnce (s : State) : Prop :=
  match pcBrook s with
  | BReturned => exists v, List.filter isSend (log s) = [(TBrook, ChanSend v)]
  | _ => List.filter isSend (log s) = []
  end.

Lemma sentOnce_step l s : notified s -> sentOnce s -> sentOnce (step l s).
Proof.
  unfold sentOnce, notified.
  destruct s as [e h c mu dn lsc evs errs sg bch pm pw pb lg].
  destruct l as [? | ? | ? | [ | | ] o]; unfold step, main, watch, brook, send, emit;
    cbn; intros Hn Hs.
  - done.
  - done.
  - by destruct sg.
  - destruct pm; cbn; branch; simplify_eq; cbn; rewrite ?List.filter_app; cbn;
      by rewrite ?app_nil_r.
  - destruct pw; cbn; branch; simplify_eq; cbn;
      rewrite ?List.filter_app; cbn; by rewrite ?app_nil_r.
  - destruct pb; cbn; branch; simplify_eq; cbn; rewrite ?List.filter_app; cbn;
      rewrite ?app_nil_r, ?Hs; cbn; eauto.
    all: destruct Hn as [Hch _]; by rewrite Hch in *.
Qed.

Lemma sentOnce_reachable s : reachable s -> sentOnce s.
Proof.
  intros Hr.
  assert (H : notified s /\ sentOnce s); [ | by destruct H ].
  revert s Hr. apply reachable_ind; [ done | ].
  intros l s [Hn Hs]. split; [ by apply notified_step | by apply sentOnce_step ].
Qed.

(** C1 (what the code does): when the start of the child fails, the
    goroutine sends [main]'s variable [err], which is nil since the watcher
    was created; it sends once and returns. *)
Theorem start_failure_sends_nil env st e o1 o2 :
  outcome env = Continue st -> startResult o1 = Some e ->
  let s := run [Run TBrook o1; Run TBrook o2] (init st) in
  pcBrook s = BReturned /\ brookCh s = [None] /\
  List.filter isSend (log s) = [(TBrook, ChanSend None)].
Proof.
  intros Hst Hstart s. subst s.
  pose proof (started_err_nil env st Hst) as Herr.
  unfold run, step, brook, send, emit. cbn. rewrite Hstart. cbn. by rewrite Herr.
Qed.

(** *** Bursts of write events *)

Definition isStore (te : Tid * Effect) : bool :=
  match te with
  | (TWatch, StorePac _) => true
  | _ => false
  end.

Definition isEnable (te : Tid * Effect) : bool :=
  match te with
  | (TWatch, ExecStart _) => true
  | _ => false
  end.

Definition reloads (s : State) : nat := length (List.filter isStore (log s)).
Definition reapplies (s : State) : nat := length (List.filter isEnable (log s)).

(** The watcher alone, from its select back to its select: eight steps. *)
Definition cycle (o : Answers) : list Label := replicate 8 (Run TWatch o).

(** The watcher waits in its select with the gate open and free. *)
Definition idle (s : State) : Prop :=
  pcWatch s = WSelect /\ closed s = false /\ closeMu s = false.

Lemma cycle_pair o s w1 w2 rest :
  pick o = CaseEvent -> (readFile o).2 = None -> isWrite w1 = true ->
  idle s -> Events s = w1 :: w2 :: rest ->
  idle (run (cycle o) s) /\ Events (run (cycle o) s) = rest /\
  reloads (run (cycle o) s) = S (reloads s) /\
  reapplies (run (cycle o) s) = S (reapplies s).
Proof.
  intros Hp Hf Hw (HW & Hc & Hmu) He.
  destruct s as [e h c mu dn lsc evs errs sg bch pm pw pb lg]. cbn in *. subst.
  destruct o as [pk [data fe] cm ux os sr wr]. cbn in *. subst.
  unfold idle, reloads, reapplies, cycle, run. cbn [replicate fold_left].
  rewrite Hw. cbn. rewrite !List.filter_app, !length_app.
  destruct (startErr _); [ | destruct (negb _) ]; cbn; (split; [ done | split; [ done | lia ] ]).
Qed.

Lemma cycle_single o s w1 :
  pick o = CaseEvent -> (readFile o).2 = None -> isWrite w1 = true ->
  idle s -> Events s = [w1] ->
  idle (run (cycle o) s) /\ Events (run (cycle o) s) = [] /\
  reloads (run (cycle o) s) = S (reloads s) /\
  reapplies (run (cycle o) s) = S (reapplies s).
Proof.
  intros Hp Hf Hw (HW & Hc & Hmu) He.
  destruct s as [e h c mu dn lsc evs errs sg bch pm pw pb lg]. cbn in *. subst.
  destruct o as [pk [data fe] cm ux os sr wr]. cbn in *. subst.
  unfold idle, reloads, reapplies, cycle, run. cbn [replicate fold_left].
  rewrite Hw. cbn. rewrite !List.filter_app, !length_app.
  destruct (startErr _); [ | destruct (negb _) ]; cbn; (split; [ done | split; [ done | lia ] ]).
Qed.

Lemma events_arrive l s :
  idle s -> idle (run (map FsEvent l) s) /\
  Events (run (map FsEvent l) s) = Events s ++ l /\
  log (run (map FsEvent l) s) = log s.
Proof.
  revert s. induction l as [ | ev l IH]; intros s Hi.
  - by rewrite app_nil_r.
  - cbn [map]. change (run (?x :: ?y) s) with (run y (step x s)).
    destruct (IH (step (FsEvent ev) s)) as (Hi' & He & Hl); [ done | ].
    split; [ done | ]. rewrite He, Hl. cbn. by rewrite <- app_assoc.
Qed.

Lemma burst_cycles o w n :
  pick o = CaseEvent -> (readFile o).2 = None -> isWrite w = true ->
  forall s,
    idle s -> Events s = replicate n w ->
    let s' := run (concat (replicate (Nat.div2 (S n)) (cycle o))) s in
    idle s' /\ Events s' = [] /\
    reloads s' = reloads s + Nat.div2 (S n) /\
    reapplies s' = reapplies s + Nat.div2 (S n).
Proof.
  intros Hp Hf Hw. induction n as [n IH] using lt_wf_ind. intros s Hi He.
  destruct n as [ | [ | n]].
  - cbn. by rewrite !Nat.add_0_r.
  - cbn [Nat.div2 replicate concat]. rewrite app_nil_r.
    destruct (cycle_single o s w Hp Hf Hw Hi He) as (Hi' & He' & Hr & Ha).
    cbv zeta. rewrite Hr, Ha. split; [ done | split; [ done | lia ] ].
  - change (Nat.div2 (S (S (S n)))) with (S (Nat.div2 (S n))).
    cbn [replicate concat]. cbv zeta. rewrite run_app.
    destruct (cycle_pair o s w w (replicate n w) Hp Hf Hw Hi He) as (Hi' & He' & Hr & Ha).
    destruct (IH n ltac:(lia) (run (cycle o) s) Hi' He') as (Hi2 & He2 & Hr2 & Ha2).
    rewrite Hr2, Ha2, Hr, Ha. split; [ done | split; [ done | lia ] ].
Qed.

(** C2 (what the code does): after a burst of [n] write events the watcher
    goes through ceil(n/2) cycles, each with one reload and one reapply,
    since each cycle takes one event and drains at most one more. *)
Theorem burst_of_writes st w o n :
  isWrite w = true -> pick o = CaseEvent -> (readFile o).2 = None ->
  let queued := run (map FsEvent (replicate n w)) (init st) in
  let s := run (concat (replicate (Nat.div2 (S n)) (cycle o))) queued in
  pcWatch s = WSelect /\ Events s = [] /\
  reloads s = Nat.div2 (S n) /\ reapplies s = Nat.div2 (S n).
Proof.
  intros Hw Hp Hf queued s.
  destruct (events_arrive (replicate n w) (init st)) as (Hi & He & Hl); [ done | ].
  destruct (burst_cycles o w n Hp Hf Hw queued Hi He) as ((? & _) & ? & Hr & Ha).
  fold s in Hr, Ha. unfold reloads, reapplies in *. fold queued in Hl.
  rewrite Hl in *. by cbn in *.
Qed.

(** *** Concrete runs *)

(** What start-up leaves on [quietHost]. *)
Definition started0 : Started := {|
  ph := {| pacData := ["p"%byte] |};
  addr := "127.0.0.1:40000";
  bin := "/usr/local/bin/brook";
  server := "example.net:9999";
  password := "secret";
  err := None
|}.

Definition writeEvent : Event := {| Name := "pac.txt"; Op := 2 |}.

(** The start of the child fails. *)
Definition failedStart : Answers := {|
  pick := CaseSignal;
  readFile := ([], None);
  cmd := fun _ => {| startErr := None; output := "" |};
  unix := 0;
  outString := "";
  startResult :=
    Some (errorString "fork/exec /usr/local/bin/brook: resource temporarily unavailable");
  waitResult := None
|}.

Lemma start_failure_sends_nil_witness :
  let s := run [Run TBrook failedStart; Run TBrook (calm CaseSignal)] (init started0) in
  pcBrook s = BReturned /\ brookCh s = [None] /\
  List.filter isSend (log s) = [(TBrook, ChanSend None)].
Proof.
  exact (start_failure_sends_nil quietHost started0 _ failedStart (calm CaseSignal)
           eq_refl eq_refl).
Defined.

(** Three write events: two cycles, two reloads, two reapplies. *)
Lemma burst_of_writes_witness :
  let queued := run (map FsEvent [writeEvent; writeEvent; writeEvent]) (init started0) in
  let s := run (cycle (calm CaseEvent) ++ cycle (calm CaseEvent)) queued in
  pcWatch s = WSelect /\ Events s = [] /\ reloads s = 2 /\ reapplies s = 2.
Proof.
  exact (burst_of_writes started0 writeEvent (calm CaseEvent) 3 eq_refl eq_refl eq_refl).
Defined.

(** The same when the second and third event arrive while the watcher
    sleeps after the first. *)
Example burst_during_sleep :
  let s := run ([FsEvent writeEvent; Run TWatch (calm CaseEvent);
                 FsEvent writeEvent; FsEvent writeEvent]
                ++ replicate 15 (Run TWatch (calm CaseEvent))) (init started0) in
  pcWatch s = WSelect /\ Events s = [] /\ reloads s = 2 /\ reapplies s = 2.
Proof. vm_compute. done. Qed.

(** A signal arrives while two write events are queued and the watcher
    sleeps; the child ends and [main] closes the gate. *)
Definition closing : list Label :=
  [FsEvent writeEvent; FsEvent writeEvent; Run TWatch (calm CaseEvent);
   Deliver SIGTERM; Run TMain (calm CaseSignal); Run TMain (calm CaseSignal);
   Run TBrook (calm CaseSignal); Run TBrook (calm CaseSignal); Run TBrook (calm CaseSignal);
   Run TMain (calm CaseSignal); Run TMain (calm CaseSignal); Run TMain (calm CaseSignal)].

Lemma closed_gate_stops_reload_witness :
  let s := run closing (init started0) in
  let s' := run (replicate 10 (Run TWatch (calm CaseEvent))) s in
  handler s' = handler s /\ quietSince s s'.
Proof.
  apply (proj1 (closed_gate_stops_reload started0 closing
                  (replicate 10 (Run TWatch (calm CaseEvent))))).
  reflexivity.
Defined.

(** The run goes on until [main] has exited. *)
Definition shutdown : list Label :=
  closing ++ replicate 3 (Run TMain (calm CaseSignal)).


End Supervisor.

(** * The stored PAC blob under concurrent reloads and requests

    [pacHandler] guards the slice [pacData] with [mu].  [reload] replaces the
    slice between [mu.Lock] and [mu.Unlock]; [ServeHTTP] copies the slice
    header between [mu.Lock] and [mu.Unlock] and writes the bytes it names
    afterwards.  A Go slice assignment is not atomic: the header is stored
    word by word, so the model stores and loads the data pointer and the
    length in separate steps, and lets any goroutine run between any two of
    them.  [Replace blob] is a call of [reload] that read [blob] from the
    file, [Snapshot] is the read in [ServeHTTP].  The backing arrays are
    never written after [ioutil.ReadFile] returned them, so a pointer is
    modelled by the bytes it points to. *)
Module ConfigStore.

(** What a goroutine asks of the handler. *)
Inductive Op :=
| Replace (blob : bytes)
| Snapshot.

(** Where a goroutine stands inside its critical section: [Store0..2] are
    the steps of [h.pacData = data; h.mu.Unlock()], [Load0..2] those of
    [data := h.pacData; h.mu.Unlock()]. *)
Inductive Pc :=
| Idle
| Store0 (data : bytes)
| Store1 (data : bytes)
| Store2 (data : bytes)
| Load0
| Load1 (ptr : bytes)
| Load2 (ptr : bytes) (len : nat).

Record Worker := {
  todo : list Op;
  pc : Pc;
  got : list bytes
}.

(** [mu] names the goroutine that holds the mutex; [ptr] and [len] are the
    two words of [pacData]; [done] lists the blobs of the calls of [reload]
    that have returned, oldest first. *)
Record Store := {
  mu : option nat;
  ptr : bytes;
  len : nat;
  threads : list Worker;
  done : list bytes
}.

Definition slice (p : bytes) (n : nat) : bytes := take n p.

(** One step of goroutine [i].  [mu.Lock] succeeds only on a free mutex;
    a goroutine that cannot move leaves the state as it is. *)
Definition step (i : nat) (s : Store) : Store :=
  match threads s !! i with
  | None => s
  | Some g =>
      let update g' := <[i := g']> (threads s) in
      match pc g with
      | Idle =>
          match todo g, mu s with
          | op :: rest, None =>
              {| mu := Some i; ptr := ptr s; len := len s; done := done s;
                 threads := update {| todo := rest; got := got g;
                                      pc := match op with
                                            | Replace data => Store0 data
                                            | Snapshot => Load0
                                            end |} |}
          | _, _ => s
          end
      | Store0 data =>
          {| mu := mu s; ptr := data; len := len s; done := done s;
             threads := update {| todo := todo g; got := got g; pc := Store1 data |} |}
      | Store1 data =>
          {| mu := mu s; ptr := ptr s; len := length data; done := done s;
             threads := update {| todo := todo g; got := got g; pc := Store2 data |} |}
      | Store2 data =>
          {| mu := None; ptr := ptr s; len := len s; done := done s ++ [data];
             threads := update {| todo := todo g; got := got g; pc := Idle |} |}
      | Load0 =>
          {| mu := mu s; ptr := ptr s; len := len s; done := done s;
             threads := update {| todo := todo g; got := got g; pc := Load1 (ptr s) |} |}
      | Load1 p =>
          {| mu := mu s; ptr := ptr s; len := len s; done := done s;
             threads := update {| todo := todo g; got := got g; pc := Load2 p (len s) |} |}
      | Load2 p n =>
          {| mu := None; ptr := ptr s; len := len s; done := done s;
             threads := update {| todo := todo g; got := got g ++ [slice p n]; pc := Idle |} |}
      end
  end.

Definition run (sched : list nat) (s : Store) : Store :=
  fold_left (fun s i => step i s) sched s.

Definition start (initial : bytes) (progs : list (list Op)) : Store := {|
  mu := None;
  ptr := initial;
  len := length initial;
  threads := (fun ops => {| todo := ops; pc := Idle; got := [] |}) <$> progs;
  done := []
|}.

Section Invariant.

Variable initial : bytes.

Definition current (s : Store) : bytes := List.last (done s) initial.

Definition whole (s : Store) : Prop := ptr s = current s /\ len s = length (current s).

(** What the holder of the mutex has done to the two words so far. *)
Definition held (s : Store) (g : Worker) : Prop :=
  match pc g with
  | Idle => False
  | Store0 _ => whole s
  | Store1 data => ptr s = data
  | Store2 data => ptr s = data /\ len s = length data
  | Load0 => whole s
  | Load1 p => whole s /\ p = current s
  | Load2 p n => whole s /\ p = current s /\ n = length (current s)
  end.

Record Inv (s : Store) : Prop := {
  inv_owner : forall j g, threads s !! j = Some g -> pc g <> Idle -> mu s = Some j;
  inv_store : match mu s with
              | None => whole s
              | Some i => exists g, threads s !! i = Some g /\ held s g
              end;
  inv_got : forall j g r, threads s !! j = Some g -> r ∈ got g -> r ∈ initial :: done s
}.

Lemma current_known s : current s ∈ initial :: done s.
Proof.
  unfold current. destruct (done s) as [ | b l] using rev_ind; [ by left | ].
  rewrite last_last. right. apply elem_of_app. right. by left.
Qed.

Lemma start_idle progs j g :
  threads (start initial progs) !! j = Some g -> pc g = Idle /\ got g = [].
Proof.
  unfold start. cbn [threads]. intros Hg.
  by apply list_lookup_fmap_Some in Hg as (ops & -> & _).
Qed.

Lemma Inv_start progs : Inv (start initial progs).
Proof.
  split.
  - intros j g Hg Hpc. by destruct (start_idle progs j g Hg).
  - done.
  - intros j g r Hg Hr. destruct (start_idle progs j g Hg) as [_ Hgot].
    rewrite Hgot in Hr. by apply elem_of_nil in Hr.
Qed.

Lemma take_whole (b : bytes) : slice b (length b) = b.
Proof. apply firstn_all. Qed.

(** The goroutine at [i] moves to [g'], the others stay. *)
Lemma lookup_moved (l : list Worker) i j g g' gj :
  l !! i = Some g -> <[i := g']> l !! j = Some gj ->
  (j = i /\ gj = g') \/ (j <> i /\ l !! j = Some gj).
Proof.
  intros Hi Hj. destruct (decide (i = j)) as [<- | Hne].
  - rewrite list_lookup_insert_eq in Hj by (by eapply lookup_lt_Some). left. by simplify_eq.
  - rewrite list_lookup_insert_ne in Hj by done. right. done.
Qed.

Lemma Inv_step i s : Inv s -> Inv (step i s).
Proof.
  intros HI. pose proof HI as [Hown Hst Hgot]. unfold step.
  destruct (threads s !! i) as [g | ] eqn:Hi; [ | done ].
  assert (Hlt : i < length (threads s)) by (by eapply lookup_lt_Some).
  destruct (pc g) eqn:Hpc.
  { (* Lock *)
    destruct (todo g) as [ | op rest] eqn:Htodo; [ done | ].
    destruct (mu s) as [k | ] eqn:Hmu; [ done | ].
    split; cbn.
    - intros j gj Hj Hne.
      destruct (lookup_moved _ _ _ _ _ _ Hi Hj) as [[-> _] | [_ Hj']]; [ done | ].
      specialize (Hown j gj Hj' Hne). congruence.
    - eexists. rewrite list_lookup_insert_eq by done. split; [ done | ].
      unfold held, whole, current in *. by destruct op.
    - intros j gj r Hj Hr.
      destruct (lookup_moved _ _ _ _ _ _ Hi Hj) as [[-> ->] | [_ Hj']]; eauto. }
  all: assert (Hmu : mu s = Some i) by (apply (Hown i g Hi); by rewrite Hpc).
  all: rewrite Hmu in Hst; destruct Hst as (g0 & Hg0 & Hheld);
    assert (g0 = g) by congruence; subst g0;
    unfold held in Hheld; rewrite Hpc in Hheld.
  all: split; cbn.
  (* who holds the mutex *)
  all: try (intros j gj Hj Hne;
            destruct (lookup_moved _ _ _ _ _ _ Hi Hj) as [[-> ->] | [Hji Hj']];
            [ done | specialize (Hown j gj Hj' Hne); congruence ]).
  (* what the goroutines have got *)
  all: try (intros j gj r Hj Hr;
            destruct (lookup_moved _ _ _ _ _ _ Hi Hj) as [[-> ->] | [Hji Hj']];
            cbn in Hr; rewrite ?app_comm_cons;
            [ | try apply elem_of_app; eauto ]).
  all: try (rewrite Hmu; eexists; rewrite list_lookup_insert_eq by done;
            split; [ done | ]; unfold held, whole, current in *; cbn; intuition done).
  all: try (by apply (Hgot i g r Hi)).
  - (* Replace unlocks: its blob is the current one *)
    destruct Hheld as [Hp Hl]. unfold whole, current. cbn. by rewrite last_last.
  - apply elem_of_app. left. by apply (Hgot i g r Hi).
  - (* Snapshot unlocks *)
    apply Hheld.
  - destruct Hheld as (_ & -> & ->). rewrite take_whole in Hr.
    apply elem_of_app in Hr as [Hr | Hr%list_elem_of_singleton].
    + by apply (Hgot i g r Hi).
    + subst r. apply current_known.
Qed.

Lemma Inv_run sched s : Inv s -> Inv (run sched s).
Proof.
  revert s. induction sched as [ | i sched IH]; intros s HI; [ done | ].
  cbn. by apply IH, Inv_step.
Qed.

End Invariant.

(** C8: whatever the interleaving of the word-by-word stores and loads, a
    snapshot is the initial blob or the blob of a Replace that has released
    the mutex, never a mix of two. *)
Theorem snapshot_never_torn initial progs sched :
  let s := run sched (start initial progs) in
  forall i g r, threads s !! i = Some g -> r ∈ got g -> r = initial \/ r ∈ done s.
Proof.
  intros s i g r Hg Hr.
  destruct (Inv_run initial sched _ (Inv_start initial progs)) as [_ _ Hgot].
  specialize (Hgot i g r Hg Hr). by apply elem_of_cons in Hgot.
Qed.

(** Two goroutines, one reloading twice and one serving twice, interleaved
    so that the second Snapshot runs between the two Replace calls. *)
Definition blobA : bytes := [x01; x02; x03].
Definition blobB : bytes := [x0a; x0b].
Definition twoWorkers : list (list Op) :=
  [ [Replace blobA; Replace blobB]; [Snapshot; Snapshot] ].
Definition interleaved : list nat :=
  [1; 0; 1; 1; 1; 0; 0; 0; 0; 1; 1; 0; 1; 1; 1; 0; 0; 0; 0].

Lemma snapshot_never_torn_witness :
  got <$> threads (run interleaved (start [] twoWorkers)) !! 1 = Some [ []; blobA ] /\
  (blobA = [] \/ blobA ∈ done (run interleaved (start [] twoWorkers))).
Proof.
  split; [ reflexivity | ].
  eapply (snapshot_never_torn [] twoWorkers interleaved 1); [ reflexivity | ].
  cbn. apply list_elem_of_further, list_elem_of_here.
Defined.

End ConfigStore.

(** * More on the discovery of the binary *)

Module Discovery.

Import Search.

Section Walk.

Variable Join : string -> string -> string.
Variable brookBinFile : string.

Local Abbreviation search := (searchExecutableFile Join brookBinFile).

(** The regular files named [brookBinFile], by path, in the order of a
    depth-first walk through the listings; a directory that cannot be read
    contributes none. *)
Fixpoint candidates (dir : string) (t : ReadDir) : list string :=
  match t with
  | ReadDirErr _ => []
  | ReadDirOk rd =>
      (fix each (rd : list FileInfo) : list string :=
         match rd with
         | [] => []
         | File name :: rest =>
             (if String.eqb name brookBinFile then [Join dir name] else []) ++ each rest
         | Dir name sub :: rest => candidates (Join dir name) sub ++ each rest
         end) rd
  end.

(** Every directory of the tree, by path, in the order of the same walk. *)
Fixpoint directories (dir : string) (t : ReadDir) : list string :=
  match t with
  | ReadDirErr _ => [dir]
  | ReadDirOk rd =>
      dir :: (fix each (rd : list FileInfo) : list string :=
                match rd with
                | [] => []
                | File _ :: rest => each rest
                | Dir name sub :: rest => directories (Join dir name) sub ++ each rest
                end) rd
  end.

Hypothesis Join_nonempty : forall dir name, Join dir name <> "".

Lemma candidates_nonempty dir t : Forall (fun p => p <> "") (candidates dir t).
Proof.
  revert dir. induction t as [e | rd IH] using ReadDir_tree_ind; intros dir; [ constructor | ].
  simpl. induction IH as [ | fi rest Hfi _ IHrest]; [ constructor | ].
  destruct fi as [name | name sub].
  - destruct (String.eqb name brookBinFile); [ constructor | ]; done.
  - apply Forall_app. split; [ apply Hfi | done ].
Qed.

Lemma search_first dir t :
  err (search dir t) = None -> path (search dir t) = hd "" (candidates dir t).
Proof.
  revert dir. induction t as [e | rd IH] using ReadDir_tree_ind; intros dir; [ done | ].
  simpl. generalize [(dir, @None error)] as log.
  induction IH as [ | fi rest Hfi _ IHrest]; intros log He; [ done | ].
  destruct fi as [name | name sub].
  - destruct (String.eqb name brookBinFile); [ done | by apply IHrest ].
  - specialize (Hfi (Join dir name)).
    pose proof (candidates_nonempty (Join dir name) sub) as Hne.
    destruct (err (search (Join dir name) sub)); [ done | ].
    specialize (Hfi eq_refl). rewrite Hfi in *.
    destruct (candidates (Join dir name) sub) as [ | p ps]; simpl in *.
    + by apply IHrest.
    + inversion Hne as [ | ? ? Hp _]; subst.
      apply String.eqb_neq in Hp. by rewrite Hp.
Qed.

(** X2: the directories read are an initial part of the depth-first walk,
    in its order; they are the whole walk when the search ends with an empty
    path and no error. *)
Theorem search_reads_in_walk_order dir t :
  exists more,
    directories dir t = map fst (reads (search dir t)) ++ more /\
    (err (search dir t) = None -> path (search dir t) = "" -> more = []).
Proof.
  revert dir. induction t as [e | rd IH] using ReadDir_tree_ind; intros dir.
  { by exists []. }
  simpl. change (dir :: ?x) with (map fst [(dir, @None error)] ++ x).
  generalize [(dir, @None error)] as log.
  induction IH as [ | fi rest Hfi _ IHrest]; intros log.
  { exists []. by rewrite !app_nil_r. }
  destruct fi as [name | name sub].
  - destruct (String.eqb name brookBinFile); [ | apply IHrest ].
    eexists. split; [ reflexivity | ]. simpl. intros _ Hp. by apply Join_nonempty in Hp.
  - destruct (Hfi (Join dir name)) as (more & Hd & Hall). rewrite Hd.
    destruct (err (search (Join dir name) sub)).
    { exists (more ++ (fix each (rd : list FileInfo) : list string :=
                         match rd with
                         | [] => []
                         | File _ :: rest => each rest
                         | Dir name sub :: rest => directories (Join dir name) sub ++ each rest
                         end) rest).
      simpl. by rewrite map_app, <- !app_assoc. }
    destruct (String.eqb (path (search (Join dir name) sub)) "") eqn:Ep; simpl.
    + apply String.eqb_eq in Ep. rewrite (Hall eq_refl Ep), app_nil_r.
      destruct (IHrest (log ++ reads (search (Join dir name) sub))) as (more' & Hd' & Hall').
      exists more'. by rewrite <- Hd', map_app, <- app_assoc.
    + apply String.eqb_neq in Ep. eexists. rewrite map_app, <- !app_assoc.
      split; [ reflexivity | done ].
Qed.

End Walk.

Lemma append_assoc (a b c : string) : (a +:+ b) +:+ c = a +:+ (b +:+ c).
Proof.
  induction a as [ | x a IH]; [ done | ].
  change (String x ((a +:+ b) +:+ c) = String x (a +:+ (b +:+ c))). by rewrite IH.
Qed.

Lemma joinSlash_nonempty dir name : joinSlash dir name <> "".
Proof. by destruct dir. Qed.


(** X1: the search returns the first regular file named [brookBinFile] of
    the depth-first walk through the listings, and the empty path when there
    is none; a path is never returned together with an error. *)
Theorem search_returns_first_match Join brookBinFile dir t :
  (forall d name, Join d name <> "") ->
  let r := searchExecutableFile Join brookBinFile dir t in
  (err r = None -> path r = hd "" (candidates Join brookBinFile dir t)) /\
  (path r <> "" -> err r = None).
Proof.
  intros HJ r. split; [ by apply search_first | ].
  intros Hp. destruct (search_shape Join brookBinFile dir t)
    as [[He _] | (d & e & pre & _ & Hp' & _)]; done.
Qed.

(** Two copies of the binary, the one in [bin] listed before the one at the
    top, and a directory that is never reached. *)
Definition twoCopies : ReadDir :=
  ReadDirOk [File "README"; Dir "bin" (ReadDirOk [File "brook"]); File "brook";
             Dir "var" (ReadDirErr (errorString "permission denied"))].

Lemma search_returns_first_match_witness :
  candidates joinSlash "brook" "/opt" twoCopies = ["/opt/bin/brook"; "/opt/brook"] /\
  path (searchExecutableFile joinSlash "brook" "/opt" twoCopies) = "/opt/bin/brook".
Proof.
  split; [ reflexivity | ].
  exact (proj1 (search_returns_first_match joinSlash "brook" "/opt" twoCopies
                  joinSlash_nonempty) eq_refl).
Defined.

Lemma search_reads_in_walk_order_witness :
  directories joinSlash "/opt" twoCopies = ["/opt"; "/opt/bin"; "/opt/var"] /\
  exists more,
    directories joinSlash "/opt" twoCopies
    = map fst (reads (searchExecutableFile joinSlash "brook" "/opt" twoCopies)) ++ more.
Proof.
  split; [ reflexivity | ].
  destruct (search_reads_in_walk_order joinSlash "brook" joinSlash_nonempty "/opt" twoCopies)
    as (more & H & _).
  by exists more.
Defined.


End Discovery.

(** * More on the handler *)

Module Handler.

Import Pac.

(** X11: after a [reload] that read the file, a request for [/pac] is
    answered 200 with exactly the bytes read; after a [reload] that could
    not read it, the handler answers as before, whatever bytes came with the
    error, and the error reads [Failed to reload pac: ] followed by the
    cause. *)
Theorem reload_then_serve h data e uri :
  String.prefix "/pac" uri = true ->
  let ok := reload h (data, None) in
  let failed := reload h (data, Some e) in
  ok.2 = None /\
  (ServeHTTP ok.1 uri newResponse).2 = {| status := Some StatusOK; body := data |} /\
  (exists msg, failed.2 = Some msg /\ Error msg = "Failed to reload pac: " +:+ Error e) /\
  ServeHTTP failed.1 uri newResponse = ServeHTTP h uri newResponse.
Proof.
  intros Huri ok failed. subst ok failed. unfold ServeHTTP, reload. cbn. rewrite Huri.
  repeat split. by eexists.
Qed.

Lemma reload_then_serve_witness :
  (ServeHTTP (reload {| pacData := ["o"%byte] |} (["n"%byte], None)).1 "/pac?ts=1" newResponse).2
  = {| status := Some 200; body := ["n"%byte] |}.
Proof.
  exact (proj1 (proj2 (reload_then_serve {| pacData := ["o"%byte] |} ["n"%byte]
                         (errorString "EIO") "/pac?ts=1" eq_refl))).
Defined.

End Handler.

(** * More on start-up *)

Module Boot.

Import Search Pac Startup.

(** The URL the PAC file is fetched from: [-pac], or the default. *)
Definition pacSource (env : Env) : string :=
  if String.eqb "" (flagPAC env) then defaultPAC else flagPAC env.

(** [-server] or [-password] is missing. *)
Definition flagsMissing (env : Env) : bool :=
  String.eqb "" (flagServer env) || String.eqb "" (flagPassword env).

Definition isFatal (e : Effect) : bool :=
  match e with
  | LogFatal _ | LogFatalf _ _ => true
  | _ => false
  end.

(** What opens the concurrent phase after the serving goroutine: the watch
    loop, the watch on the file, the child's goroutine, the signal handler. *)
Definition isLoopStart (e : Effect) : bool :=
  match e with
  | Go WatchLoop | Go BrookWait | WatcherAdd _ | SignalNotify => true
  | _ => false
  end.

Definition quiet (e : Effect) : bool := negb (isFatal e) && negb (isLoopStart e).

(** A phase that goes on has logged nothing fatal and started no loop; one
    that ends the process ends it with code 1, right after its one fatal
    line. *)
Definition ended {A} (m : M A) : Prop :=
  match m.2 with
  | Continue _ => forallb quiet m.1 = true
  | Exit c =>
      c = 1 /\ exists pre e, m.1 = pre ++ [e] /\ isFatal e = true /\ forallb quiet pre = true
  end.

(** The trace of a start-up that goes through [launch] to the end. *)
Definition launched (flagBinPath lsAddr : string) : list Effect :=
  [NetListen "127.0.0.1:0"; ReadFile pacLocalPath; Go ServeLoop;
   LogPrint (AStr "Enable system proxy ...");
   ExecStart (enableArgv flagBinPath ("http://" +:+ lsAddr +:+ "/pac"));
   NewWatcher; Go WatchLoop; WatcherAdd pacLocalPath; Go BrookWait; SignalNotify].

Lemma findBinary_ended env : ended (findBinary env).
Proof.
  unfold ended, findBinary.
  destruct (String.eqb "" (flagBinPath env)); [ | done ].
  destruct (absDir env) as [dir [e | ]]; [ split; [ done | by eexists [], _ ] | ].
  assert (Hreads : forallb quiet
            (map (fun c : string * option error => ReadDirCall c.1)
               (Search.reads
                  (searchExecutableFile (filepath_Join env) (brookBinFile env) dir (tree env))))
            = true).
  { apply forallb_forall. intros e He. apply in_map_iff in He as (c & <- & _). done. }
  unfold tells, Fatal. cbn.
  destruct (Search.err _); cbn; [ split; [ done | by eexists _, _ ] | ].
  destruct (Search.path _); cbn; [ split; [ done | by eexists _, _ ] | ].
  by rewrite app_nil_r.
Qed.

Lemma fetchPac_ended env pac : ended (fetchPac env pac).
Proof.
  unfold ended, fetchPac, tell, Fatalf.
  destruct (negb _ || _); cbn; [ | done ].
  destruct (httpGet env); cbn; [ split; [ done | by eexists [_; _], _ ] | ].
  destruct (readAll env) as [data e].
  destruct (notNil e || _); cbn; [ split; [ done | by eexists [_; _], _ ] | ].
  destruct (writeFile env); cbn; [ split; [ done | by eexists [_; _; _], _ ] | done ].
Qed.

(** [launch] either runs to its end, or ends the process before any loop
    was started. *)
Lemma launch_cases env b :
  match (launch env b).2 with
  | Continue st =>
      (launch env b).1 = launched b (listen env).1 /\
      st = {| ph := {| pacData := (readFile env).1 |}; addr := (listen env).1; bin := b;
              server := flagServer env; password := flagPassword env; err := None |} /\
      (listen env).2 = None /\ (readFile env).2 = None /\ newWatcher env = None /\
      (enableSystemProxy b ("http://" +:+ (listen env).1 +:+ "/pac") (exec env)).2 = None
  | Exit _ => ended (launch env b)
  end.
Proof.
  unfold ended, launch, tell, tells, Fatal, Fatalf, reload, enableSystemProxy.
  destruct (listen env) as [a [e | ]]; cbn; [ split; [ done | by eexists [_], _ ] | ].
  destruct (readFile env) as [data [e | ]]; cbn; [ split; [ done | by eexists [_; _], _ ] | ].
  destruct (startErr _); cbn; [ split; [ done | by eexists [_; _; _; _; _], _ ] | ].
  destruct (negb _); cbn; [ split; [ done | by eexists [_; _; _; _; _], _ ] | ].
  destruct (newWatcher env); cbn; [ split; [ done | by eexists [_; _; _; _; _; _], _ ] | ].
  done.
Qed.

Lemma flagsMissing_spec env :
  flagsMissing env = true <-> flagServer env = "" \/ flagPassword env = "".
Proof.
  unfold flagsMissing. rewrite orb_true_iff, !String.eqb_eq. intuition congruence.
Qed.

(** The three phases of a start-up whose flags are there: the trace of each
    is empty when an earlier one ended the process. *)
Lemma trace_phases env :
  flagsMissing env = false ->
  exists t2 t3,
    trace env = (findBinary env).1 ++ t2 ++ t3 /\
    (t2 = [] \/ t2 = (fetchPac env (pacSource env)).1) /\
    (t3 = [] \/ exists b, (findBinary env).2 = Continue b /\ t3 = (launch env b).1).
Proof.
  intros Hflags. unfold trace. rewrite main_startup_phases by done.
  fold (pacSource env).
  destruct (findBinary env) as [t1 [b | c]]; cbn.
  - destruct (fetchPac env _) as [t2 [[] | c]]; cbn.
    + exists t2, (launch env b).1.
      split; [ done | split; [ by right | right; by exists b ] ].
    + exists t2, []. rewrite app_nil_r. split; [ done | split; [ by right | by left ] ].
  - exists [], []. rewrite app_nil_r. split; [ done | split; by left ].
Qed.

Lemma in_phases env e :
  flagsMissing env = false -> In e (trace env) ->
  In e (findBinary env).1 \/
  (In e (fetchPac env (pacSource env)).1 /\
   forall e', In e' (fetchPac env (pacSource env)).1 -> In e' (trace env)) \/
  exists b, (findBinary env).2 = Continue b /\ In e (launch env b).1.
Proof.
  intros Hflags Hin.
  destruct (trace_phases env Hflags) as (t2 & t3 & Ht & H2 & H3).
  rewrite Ht, !in_app_iff in Hin.
  destruct Hin as [Hin | [Hin | Hin]]; [ by left | right; left | right; right ].
  - destruct H2 as [-> | ->]; [ done | ]. split; [ done | ].
    intros e' He'. rewrite Ht, !in_app_iff. eauto.
  - destruct H3 as [-> | (b & Hb & ->)]; [ done | eauto ].
Qed.

(** X4: the usage is printed exactly when [-server] or [-password] is
    missing, and then nothing else is done: no directory is read, nothing is
    downloaded, no listener is opened, no command is started, and the process
    ends with code 0. *)
Theorem usage_printed_iff env :
  (In PrintDefaults (trace env) <-> flagServer env = "" \/ flagPassword env = "") /\
  (In PrintDefaults (trace env) -> main_startup env = ([PrintDefaults], Exit 0)).
Proof.
  rewrite <- flagsMissing_spec.
  destruct (flagsMissing env) eqn:Hflags.
  - unfold trace, main_startup. unfold flagsMissing in Hflags. rewrite Hflags. cbn.
    split; [ split; [ done | by left ] | done ].
  - assert (Hno : ~ In PrintDefaults (trace env)).
    { intros Hin. destruct (in_phases env _ Hflags Hin) as [H | [H | (b & _ & H)]].
      + wrong_kind (findBinary_effects env) H.
      + destruct H as [H _]. wrong_kind (fetchPac_effects env (pacSource env)) H.
      + wrong_kind (launch_effects env b) H. }
    split; [ split; [ done | done ] | done ].
Qed.

(** A start-up that reaches the select went through the three phases. *)
Lemma outcome_phases env st :
  outcome env = Continue st ->
  flagsMissing env = false /\
  exists b,
    (findBinary env).2 = Continue b /\
    (fetchPac env (pacSource env)).2 = Continue tt /\
    (launch env b).2 = Continue st /\
    trace env = (findBinary env).1 ++ (fetchPac env (pacSource env)).1 ++ (launch env b).1.
Proof.
  unfold outcome, trace. destruct (flagsMissing env) eqn:Hflags.
  { unfold main_startup. unfold flagsMissing in Hflags. by rewrite Hflags. }
  rewrite main_startup_phases by done. fold (pacSource env).
  destruct (findBinary env) as [t1 [b | c]]; [ | done ].
  destruct (fetchPac env _) as [t2 [[] | c]]; [ | done ].
  cbn. intros Hst. split; [ done | ]. by exists b.
Qed.

(** The one command [launch] starts. *)
Lemma launch_exec env b argv :
  In (ExecStart argv) (launch env b).1 ->
  argv = enableArgv b ("http://" +:+ (listen env).1 +:+ "/pac").
Proof.
  unfold launch, tell, tells, Fatal, Fatalf, reload, enableSystemProxy.
  destruct (listen env) as [a [e | ]]; cbn; [ intros Hin; in_cases Hin | ].
  destruct (readFile env) as [data [e | ]]; cbn; [ intros Hin; in_cases Hin | ].
  destruct (startErr _); cbn; [ intros Hin; in_cases Hin; by injection Hin | ].
  destruct (negb _); cbn; [ intros Hin; in_cases Hin; by injection Hin | ].
  destruct (newWatcher env); cbn; intros Hin; in_cases Hin; by injection Hin.
Qed.

(** X5: when [-bin] is given, no directory is read, the given path is the
    head of every command start-up runs, and it is the binary handed to the
    concurrent phase. *)
Theorem given_binary_is_used env :
  flagBinPath env <> "" ->
  (forall dir, ~ In (ReadDirCall dir) (trace env)) /\
  (forall argv, In (ExecStart argv) (trace env) -> hd "" argv = flagBinPath env) /\
  (forall st, outcome env = Continue st -> bin st = flagBinPath env).
Proof.
  intros Hbin.
  assert (Hfind : findBinary env = ([], Continue (flagBinPath env))).
  { unfold findBinary. destruct (String.eqb "" (flagBinPath env)) eqn:E; [ | done ].
    apply String.eqb_eq in E. by destruct Hbin. }
  destruct (flagsMissing env) eqn:Hflags.
  { unfold outcome, trace, main_startup. unfold flagsMissing in Hflags. rewrite Hflags. cbn.
    split; [ | split ]; [ intros ? [ | [] ] | intros ? [ | [] ] | ]; done. }
  split; [ | split ].
  - intros dir Hin. destruct (in_phases env _ Hflags Hin) as [H | [[H _] | (b & _ & H)]].
    + by rewrite Hfind in H.
    + wrong_kind (fetchPac_effects env (pacSource env)) H.
    + wrong_kind (launch_effects env b) H.
  - intros argv Hin. destruct (in_phases env _ Hflags Hin) as [H | [[H _] | (b & Hb & H)]].
    + by rewrite Hfind in H.
    + wrong_kind (fetchPac_effects env (pacSource env)) H.
    + rewrite Hfind in Hb. injection Hb as <-. by rewrite (launch_exec env _ argv H).
  - intros st Hst. destruct (outcome_phases env st Hst) as (_ & b & Hb & _ & Hl & _).
    rewrite Hfind in Hb. injection Hb as <-.
    pose proof (launch_cases env (flagBinPath env)) as Hc. rewrite Hl in Hc.
    by destruct Hc as (_ & -> & _).
Qed.

Lemma given_binary_is_used_witness :
  (forall dir, ~ In (ReadDirCall dir) (trace quietHost)) /\
  (forall argv, In (ExecStart argv) (trace quietHost) -> hd "" argv = "/usr/local/bin/brook") /\
  (forall st, outcome quietHost = Continue st -> bin st = "/usr/local/bin/brook").
Proof. apply (given_binary_is_used quietHost). discriminate. Defined.

(** [findBinary] when it has to search. *)
Lemma findBinary_search env :
  flagBinPath env = "" -> (absDir env).2 = None ->
  let r := searchExecutableFile (filepath_Join env) (brookBinFile env)
             (absDir env).1 (tree env) in
  findBinary env =
  (map ReadDirCall (map fst (Search.reads r)) ++
   match Search.err r with
   | Some _ => [LogFatal (AStr "Can't find brook binary file")]
   | None =>
       if String.eqb "" (Search.path r)
       then [LogFatal (AStr "brook binary file not found")]
       else []
   end,
   match Search.err r with
   | Some _ => Exit 1
   | None => if String.eqb "" (Search.path r) then Exit 1 else Continue (Search.path r)
   end).
Proof.
  intros Hbin Habs r. unfold findBinary. rewrite Hbin.
  change (String.eqb "" "") with true. cbv iota.
  destruct (absDir env) as [dir e]. cbn in Habs, r. subst e. fold r.
  rewrite map_map. unfold tells, Fatal.
  destruct (Search.err r); [ done | ].
  destruct (String.eqb "" (Search.path r)); done.
Qed.

(** X6: when [-bin] is not given, start-up first reads the directories the
    search reads, in its order.  A failed read ends it with the fixed line
    [Can't find brook binary file] (the error itself is not printed), an
    empty result with [brook binary file not found], both before anything
    else is done; otherwise the path found is the binary handed on. *)
Theorem searched_binary_or_fatal env :
  flagsMissing env = false -> flagBinPath env = "" -> (absDir env).2 = None ->
  let r := searchExecutableFile (filepath_Join env) (brookBinFile env)
             (absDir env).1 (tree env) in
  exists rest,
    trace env = map ReadDirCall (map fst (Search.reads r)) ++ rest /\
    match Search.err r with
    | Some _ => rest = [LogFatal (AStr "Can't find brook binary file")] /\ outcome env = Exit 1
    | None =>
        if String.eqb "" (Search.path r)
        then rest = [LogFatal (AStr "brook binary file not found")] /\ outcome env = Exit 1
        else forall st, outcome env = Continue st -> bin st = Search.path r
    end.
Proof.
  intros Hflags Hbin Habs r.
  pose proof (launch_cases env (Search.path r)) as Hl.
  unfold outcome, trace. rewrite main_startup_phases by done. fold (pacSource env).
  rewrite (findBinary_search env Hbin Habs). fold r.
  destruct (Search.err r); [ by eexists | ].
  destruct (String.eqb "" (Search.path r)); [ by eexists | ].
  destruct (fetchPac env (pacSource env)) as [t2 [[] | c]].
  - eexists. split; [ by rewrite <- app_assoc | ]. cbn [fst snd]. intros st Hst.
    rewrite Hst in Hl.
    by destruct Hl as (_ & -> & _).
  - eexists. split; [ by rewrite <- app_assoc | ]. done.
Qed.

(** A host started without [-bin] from [/opt], where two copies of the
    binary lie. *)
Definition searchingHost : Env := {|
  flagServer := "example.net:9999";
  flagPassword := "secret";
  flagBinPath := "";
  flagPAC := "";
  flagUpdate := false;
  brookBinFile := "brook";
  filepath_Join := joinSlash;
  absDir := ("/opt", None);
  tree := Discovery.twoCopies;
  statPac := None;
  os_IsExist := fun _ => false;
  httpGet := None;
  readAll := (["p"%byte], None);
  writeFile := None;
  listen := ("127.0.0.1:40000", None);
  readFile := (["p"%byte], None);
  exec := fun _ => {| startErr := None; output := "" |};
  newWatcher := None
|}.

Lemma searched_binary_or_fatal_witness :
  exists rest,
    trace searchingHost = [ReadDirCall "/opt"; ReadDirCall "/opt/bin"] ++ rest /\
    forall st, outcome searchingHost = Continue st -> bin st = "/opt/bin/brook".
Proof.
  exact (searched_binary_or_fatal searchingHost eq_refl eq_refl eq_refl).
Defined.

(** Why [fetchPac] downloads: [-update], or [os.Stat] failed with an error
    that [os.IsExist] does not recognise. *)
Definition mustDownload (env : Env) : Prop :=
  flagUpdate env = true \/ exists e, statPac env = Some e /\ os_IsExist env e = false.

Lemma mustDownload_spec env :
  negb (Exists (statPac env) (os_IsExist env)) || flagUpdate env = true <-> mustDownload env.
Proof.
  unfold mustDownload, Exists. rewrite orb_true_iff. split.
  - intros [H | H]; [ right | by left ].
    destruct (statPac env) as [e | ]; [ | done ]. exists e.
    by destruct (os_IsExist env e).
  - intros [H | (e & -> & ->)]; [ by right | by left ].
Qed.

Definition downloadLine : Effect :=
  LogPrintf "Downloading pac file from %s ..." [AStr pacLocalPath].

Lemma fetchPac_get env pac url :
  In (HttpGet url) (fetchPac env pac).1 ->
  url = pac /\ mustDownload env /\ In downloadLine (fetchPac env pac).1.
Proof.
  rewrite <- mustDownload_spec. unfold fetchPac, tell, Fatalf.
  destruct (negb _ || _); cbn; [ | intros Hin; in_cases Hin ].
  destruct (httpGet env); cbn;
    [ intros Hin; in_cases Hin; injection Hin as <-; repeat split; by left | ].
  destruct (readAll env) as [data e].
  destruct (notNil e || _); cbn;
    [ intros Hin; in_cases Hin; injection Hin as <-; repeat split; by left | ].
  destruct (writeFile env); cbn; intros Hin; in_cases Hin; injection Hin as <-;
    repeat split; by left.
Qed.

Lemma fetchPac_must env pac :
  mustDownload env -> In (HttpGet pac) (fetchPac env pac).1.
Proof.
  rewrite <- mustDownload_spec. unfold fetchPac, tell, Fatalf. intros ->. cbn.
  destruct (httpGet env); cbn; [ by right; left | ].
  destruct (readAll env) as [data e].
  destruct (notNil e || _); cbn; [ by right; left | ].
  destruct (writeFile env); cbn; by right; left.
Qed.

Lemma fetchPac_saved env pac name data :
  In (WriteFile name data) (fetchPac env pac).1 ->
  name = pacLocalPath /\ data = (readAll env).1 /\ data <> [] /\
  (readAll env).2 = None /\ httpGet env = None /\ In (HttpGet pac) (fetchPac env pac).1.
Proof.
  unfold fetchPac, tell, Fatalf.
  destruct (negb _ || _); cbn; [ | intros Hin; in_cases Hin ].
  destruct (httpGet env); cbn; [ intros Hin; in_cases Hin | ].
  destruct (readAll env) as [data' [e | ]]; cbn; [ intros Hin; in_cases Hin | ].
  destruct data' as [ | x data']; cbn; [ intros Hin; in_cases Hin | ].
  destruct (writeFile env); cbn; intros Hin; in_cases Hin; injection Hin as <- <-;
    repeat split; try done; by right; left.
Qed.

(** X7: the PAC file is fetched only when [-update] is given or [os.Stat]
    of the local copy fails with an error [os.IsExist] does not recognise,
    and then from [-pac], or from the default URL when [-pac] is empty; the
    line logged before names the local path.  Whenever the binary is there
    and one of the two holds, it is fetched. *)
Theorem download_when_absent_or_update env :
  (forall url, In (HttpGet url) (trace env) ->
     url = pacSource env /\ mustDownload env /\ In downloadLine (trace env)) /\
  (flagsMissing env = false -> (exists b, (findBinary env).2 = Continue b) ->
   mustDownload env -> In (HttpGet (pacSource env)) (trace env)).
Proof.
  split.
  - intros url Hin. destruct (flagsMissing env) eqn:Hflags.
    { unfold trace, main_startup in Hin. unfold flagsMissing in Hflags.
      rewrite Hflags in Hin. in_cases Hin. }
    destruct (in_phases env _ Hflags Hin) as [H | [[H Hsub] | (b & _ & H)]].
    + wrong_kind (findBinary_effects env) H.
    + destruct (fetchPac_get env _ url H) as (-> & Hm & Hl). auto.
    + wrong_kind (launch_effects env b) H.
  - intros Hflags [b Hb] Hm. unfold trace. rewrite main_startup_phases by done.
    fold (pacSource env). pose proof (fetchPac_must env (pacSource env) Hm) as Hin.
    destruct (findBinary env) as [t1 [b' | c]]; [ | done ].
    destruct (fetchPac env _) as [t2 [[] | c]]; cbn [fst snd] in *;
      rewrite !in_app_iff; auto.
Qed.

(** A first run: no local copy yet. *)
Definition freshHost : Env := {|
  flagServer := "example.net:9999";
  flagPassword := "secret";
  flagBinPath := "/usr/local/bin/brook";
  flagPAC := "http://intranet/proxy.pac";
  flagUpdate := false;
  brookBinFile := "brook";
  filepath_Join := joinSlash;
  absDir := ("/opt/brooktool", None);
  tree := ReadDirOk [];
  statPac := Some (errorString "stat ./pac.txt: no such file or directory");
  os_IsExist := fun _ => false;
  httpGet := None;
  readAll := (["p"%byte; "a"%byte; "c"%byte], None);
  writeFile := None;
  listen := ("127.0.0.1:40000", None);
  readFile := (["p"%byte; "a"%byte; "c"%byte], None);
  exec := fun _ => {| startErr := None; output := "" |};
  newWatcher := None
|}.

Lemma download_when_absent_or_update_witness :
  In (HttpGet "http://intranet/proxy.pac") (trace freshHost).
Proof.
  apply (proj2 (download_when_absent_or_update freshHost)).
  - reflexivity.
  - by eexists.
  - right. by eexists.
Defined.

(** X8: the local copy is written only by a download, once the whole body
    was read without error and is not empty, and with exactly that body. *)
Theorem saved_file_is_download env name data :
  In (WriteFile name data) (trace env) ->
  name = pacLocalPath /\ data = (readAll env).1 /\ data <> [] /\
  (readAll env).2 = None /\ httpGet env = None /\
  In (HttpGet (pacSource env)) (trace env).
Proof.
  intros Hin. destruct (flagsMissing env) eqn:Hflags.
  { unfold trace, main_startup in Hin. unfold flagsMissing in Hflags.
    rewrite Hflags in Hin. in_cases Hin. }
  destruct (in_phases env _ Hflags Hin) as [H | [[H Hsub] | (b & _ & H)]].
  - wrong_kind (findBinary_effects env) H.
  - destruct (fetchPac_saved env _ name data H) as (? & ? & ? & ? & ? & ?).
    repeat split; auto.
  - wrong_kind (launch_effects env b) H.
Qed.

Lemma saved_file_is_download_witness :
  In (WriteFile pacLocalPath ["p"%byte; "a"%byte; "c"%byte]) (trace freshHost) /\
  In (HttpGet "http://intranet/proxy.pac") (trace freshHost).
Proof.
  assert (H : In (WriteFile pacLocalPath ["p"%byte; "a"%byte; "c"%byte]) (trace freshHost))
    by in_trace.
  split; [ exact H | ].
  exact (proj2 (proj2 (proj2 (proj2 (proj2
           (saved_file_is_download freshHost _ _ H)))))).
Defined.

Lemma forallb_weaken {A} (p q : A -> bool) (l : list A) :
  (forall a, p a = true -> q a = true) -> forallb p l = true -> forallb q l = true.
Proof. rewrite !forallb_forall. auto. Qed.

Lemma startup_exit env c :
  flagsMissing env = false -> outcome env = Exit c ->
  c = 1 /\
  exists pre e, trace env = pre ++ [e] /\ isFatal e = true /\ forallb quiet pre = true.
Proof.
  intros Hflags. unfold outcome, trace. rewrite main_startup_phases by done.
  fold (pacSource env).
  pose proof (findBinary_ended env) as H1.
  pose proof (fetchPac_ended env (pacSource env)) as H2.
  unfold ended in H1, H2.
  destruct (findBinary env) as [t1 [b | c1]]; cbn [fst snd] in *.
  - pose proof (launch_cases env b) as H3.
    destruct (fetchPac env _) as [t2 [[] | c2]]; cbn [fst snd] in *.
    + intros Hl. rewrite Hl in H3. unfold ended in H3. rewrite Hl in H3.
      destruct H3 as (-> & pre & e & -> & He & Hpre).
      split; [ done | ]. exists (t1 ++ t2 ++ pre), e.
      rewrite <- !app_assoc, !forallb_app, H1, H2, Hpre. done.
    + intros [= <-]. destruct H2 as (-> & pre & e & -> & He & Hpre).
      split; [ done | ]. exists (t1 ++ pre), e.
      rewrite <- !app_assoc, !forallb_app, H1, Hpre. done.
  - intros [= <-]. exact H1.
Qed.

(** X9: a start-up that ends the process either printed the usage and
    nothing else (code 0), or ended with code 1 right after its one fatal
    log line; in both cases no watch loop, no watch on the file, no goroutine
    for the child and no signal handler were set up. *)
Theorem failed_startup_shape env c :
  outcome env = Exit c ->
  ((c = 0 /\ trace env = [PrintDefaults]) \/
   (c = 1 /\ exists pre e,
       trace env = pre ++ [e] /\ isFatal e = true /\
       forallb (fun e => negb (isFatal e)) pre = true)) /\
  forallb (fun e => negb (isLoopStart e)) (trace env) = true.
Proof.
  intros Hout. destruct (flagsMissing env) eqn:Hflags.
  - unfold outcome, trace, main_startup in *. unfold flagsMissing in Hflags.
    rewrite Hflags in *. cbn in *. injection Hout as <-. split; [ by left | done ].
  - destruct (startup_exit env c Hflags Hout) as (-> & pre & e & Ht & He & Hpre).
    split.
    + right. split; [ done | ]. exists pre, e. split; [ done | split; [ done | ] ].
      revert Hpre. apply forallb_weaken. unfold quiet. by intros a [? _]%andb_prop.
    + rewrite Ht, forallb_app. cbn. rewrite andb_true_r. apply andb_true_intro. split.
      * revert Hpre. apply forallb_weaken. unfold quiet. by intros a [_ ?]%andb_prop.
      * by destruct e as [ | | | | | | | | | | [ | | ] | | | | | | | | | | | | | ].
Qed.

(** A host on which no watcher can be created. *)
Definition noWatcherHost : Env := {|
  flagServer := "example.net:9999";
  flagPassword := "secret";
  flagBinPath := "/usr/local/bin/brook";
  flagPAC := "";
  flagUpdate := false;
  brookBinFile := "brook";
  filepath_Join := joinSlash;
  absDir := ("/opt/brooktool", None);
  tree := ReadDirOk [];
  statPac := None;
  os_IsExist := fun _ => false;
  httpGet := None;
  readAll := (["p"%byte], None);
  writeFile := None;
  listen := ("127.0.0.1:40000", None);
  readFile := (["p"%byte], None);
  exec := fun _ => {| startErr := None; output := "" |};
  newWatcher := Some (errorString "too many open files")
|}.

Lemma failed_startup_shape_witness :
  ((1 = 0 /\ trace noWatcherHost = [PrintDefaults]) \/
   (1 = 1 /\ exists pre e,
       trace noWatcherHost = pre ++ [e] /\ isFatal e = true /\
       forallb (fun e => negb (isFatal e)) pre = true)) /\
  forallb (fun e => negb (isLoopStart e)) (trace noWatcherHost) = true.
Proof. exact (failed_startup_shape noWatcherHost 1 eq_refl). Defined.

Definition isPrep (e : Effect) : bool :=
  match e with
  | ReadDirCall _ | LogPrintf _ _ | HttpGet _ | WriteFile _ _ => true
  | _ => false
  end.

Lemma prep_of_kind (P : Effect -> Prop) (l : list Effect) :
  (forall e, P e -> isFatal e = false -> isPrep e = true) ->
  Forall P l -> forallb quiet l = true -> forallb isPrep l = true.
Proof.
  intros HP Hall. rewrite !forallb_forall. intros Hq e He.
  apply HP.
  - rewrite Forall_forall in Hall. by apply Hall, list_elem_of_In.
  - specialize (Hq e He). unfold quiet in Hq. apply andb_prop in Hq as [Hq _].
    by destruct (isFatal e).
Qed.

(** X10: a start-up that reaches the select has, after the directory reads,
    the download and the log lines, done exactly this, in this order: open
    the listener, load the PAC file, launch the serving goroutine, start the
    enable command on the listener's address, create the watcher, launch the
    watch loop, add the file to the watcher, launch the child's goroutine,
    install the signal handler.  The blob served is the content of the local
    file, and neither [-server] nor [-password] is empty. *)
Theorem successful_startup_trace env st :
  outcome env = Continue st ->
  (exists pre, trace env = pre ++ launched (bin st) (addr st) /\
               forallb isPrep pre = true) /\
  pacData (ph st) = (readFile env).1 /\ addr st = (listen env).1 /\
  server st = flagServer env /\ password st = flagPassword env /\
  server st <> "" /\ password st <> "".
Proof.
  intros Hout.
  destruct (outcome_phases env st Hout) as (Hflags & b & Hb & Hf & Hl & Ht).
  pose proof (launch_cases env b) as Hc. rewrite Hl in Hc.
  destruct Hc as (Hlt & -> & _). cbn.
  pose proof (findBinary_ended env) as H1.
  pose proof (fetchPac_ended env (pacSource env)) as H2.
  unfold ended in H1, H2. rewrite Hb in H1. rewrite Hf in H2.
  split; [ | repeat split ].
  - exists ((findBinary env).1 ++ (fetchPac env (pacSource env)).1).
    rewrite Ht, Hlt, <- app_assoc. split; [ done | ].
    rewrite forallb_app. apply andb_true_intro. split.
    + apply (prep_of_kind isSearchEffect _ ltac:(intros []; cbn; done) (findBinary_effects env) H1).
    + apply (prep_of_kind isFetchEffect _ ltac:(intros []; cbn; done) (fetchPac_effects env _) H2).
  - intros H. unfold flagsMissing in Hflags. apply orb_false_elim in Hflags as [Hs _].
    by rewrite H in Hs.
  - intros H. unfold flagsMissing in Hflags. apply orb_false_elim in Hflags as [_ Hp].
    by rewrite H in Hp.
Qed.

Lemma successful_startup_trace_witness :
  (exists pre, trace freshHost = pre ++ launched "/usr/local/bin/brook" "127.0.0.1:40000" /\
               forallb isPrep pre = true) /\
  trace freshHost =
    [downloadLine; HttpGet "http://intranet/proxy.pac";
     WriteFile pacLocalPath ["p"%byte; "a"%byte; "c"%byte]]
    ++ launched "/usr/local/bin/brook" "127.0.0.1:40000".
Proof.
  split; [ | reflexivity ].
  exact (proj1 (successful_startup_trace freshHost _ eq_refl)).
Defined.

End Boot.

(** * More on the concurrent phase *)

Module Loops.

Import Pac Startup Supervisor.

(** ** The watcher's select *)

(** X12: events that are not writes are taken from the queue one by one and
    change nothing else: no sleep, no lock, no log line, no reload. *)
Theorem other_events_are_dropped o evs rest s :
  pick o = CaseEvent -> forallb (fun ev => negb (isWrite ev)) evs = true ->
  pcWatch s = WSelect -> Events s = evs ++ rest ->
  run (replicate (length evs) (Run TWatch o)) s = set_Events rest s.
Proof.
  intros Hp. revert s. induction evs as [ | ev evs IH]; intros s Hw HW He.
  - destruct s. cbn in *. by subst.
  - cbn in Hw. apply andb_prop in Hw as [Hev Hw]. apply negb_true_iff in Hev.
    cbn [length replicate app] in *. change (run (?l :: ?k) s) with (run k (step l s)).
    assert (Hstep : step (Run TWatch o) s = set_Events (evs ++ rest) s).
    { unfold step, watch. by rewrite HW, Hp, He, Hev. }
    rewrite Hstep, IH; [ by destruct s | done | by destruct s | by destruct s ].
Qed.

(** X13: errors of the watcher are logged one by one and change nothing
    else; the loop goes on. *)
Theorem watch_errors_are_logged o errs rest s :
  pick o = CaseError -> pcWatch s = WSelect -> Errors s = errs ++ rest ->
  run (replicate (length errs) (Run TWatch o)) s
  = set_log (log s ++ map (fun e => (TWatch, LogPrintf "Watch pac error: %v" [AErr (Some e)]))
                        errs)
      (set_Errors rest s).
Proof.
  intros Hp. revert s. induction errs as [ | e errs IH]; intros s HW He.
  - destruct s. cbn in *. subst. by rewrite app_nil_r.
  - cbn [length replicate app] in *. change (run (?l :: ?k) s) with (run k (step l s)).
    assert (Hstep : step (Run TWatch o) s
                    = emit TWatch [LogPrintf "Watch pac error: %v" [AErr (Some e)]]
                        (set_Errors (errs ++ rest) s)).
    { unfold step, watch. by rewrite HW, Hp, He. }
    rewrite Hstep, IH; [ | by destruct s | by destruct s ].
    destruct s. unfold emit, set_log, set_Errors. cbn. by rewrite <- app_assoc.
Qed.

(** A file that is created, then has its mode changed, then is written. *)
Definition createEvent : Event := {| Name := "pac.txt"; Op := 1 |}.
Definition chmodEvent : Event := {| Name := "pac.txt"; Op := 16 |}.

Lemma other_events_are_dropped_witness :
  let s := run (map FsEvent [createEvent; chmodEvent; writeEvent]) (init started0) in
  run (replicate 2 (Run TWatch (calm CaseEvent))) s = set_Events [writeEvent] s.
Proof.
  exact (other_events_are_dropped (calm CaseEvent) [createEvent; chmodEvent] [writeEvent]
           (run (map FsEvent [createEvent; chmodEvent; writeEvent]) (init started0))
           eq_refl eq_refl eq_refl eq_refl).
Defined.

Lemma watch_errors_are_logged_witness :
  let s := run [FsError (errorString "inotify: queue overflow")] (init started0) in
  run [Run TWatch (calm CaseError)] s
  = set_log [(TWatch, LogPrintf "Watch pac error: %v"
                        [AErr (Some (errorString "inotify: queue overflow"))])]
      (set_Errors [] s).
Proof.
  exact (watch_errors_are_logged (calm CaseError) [errorString "inotify: queue overflow"] []
           (run [FsError (errorString "inotify: queue overflow")] (init started0))
           eq_refl eq_refl eq_refl).
Defined.

(** ** One cycle of the watcher *)

Definition changedLine (event : Event) : Effect :=
  LogPrintf "Pac file has changed, update pac config %s" [AEvent event].

(** X14: when the file cannot be read in a cycle, the blob stays, the
    enable command is not started, the error is logged, the lock is released
    and the watcher is back in its select: seven steps. *)
Theorem failed_reload_skips_reapply o s w rest e :
  pick o = CaseEvent -> (readFile o).2 = Some e -> isWrite w = true ->
  idle s -> Events s = w :: rest ->
  let s' := run (replicate 7 (Run TWatch o)) s in
  idle s' /\ handler s' = handler s /\ Events s' = tl rest /\
  log s' = log s ++ map (pair TWatch)
                      [changedLine w; MuLock; ReadFile pacLocalPath;
                       LogPrint (AErr (Some (reloadError e))); MuUnlock].
Proof.
  intros Hp Hf Hw (HW & Hc & Hmu) He.
  destruct s as [en h c mu dn lsc evs errs sg bch pm pw pb lg]. cbn in *. subst.
  destruct o as [pk [data fe] cm ux os sr wr]. cbn in *. subst.
  unfold idle, run. cbn [replicate fold_left].
  rewrite Hw. destruct rest; cbn; rewrite <- !app_assoc; done.
Qed.

(** The PAC file cannot be read. *)
Definition unreadable : Answers := {|
  pick := CaseEvent;
  readFile := ([], Some (errorString "open ./pac.txt: permission denied"));
  cmd := fun _ => {| startErr := None; output := "" |};
  unix := 0;
  outString := "";
  startResult := None;
  waitResult := None
|}.

Lemma failed_reload_skips_reapply_witness :
  let s := run [FsEvent writeEvent] (init started0) in
  let s' := run (replicate 7 (Run TWatch unreadable)) s in
  idle s' /\ handler s' = handler s /\ Events s' = [] /\
  log s' = map (pair TWatch)
             [changedLine writeEvent; MuLock; ReadFile pacLocalPath;
              LogPrint (AErr (Some (reloadError
                                      (errorString "open ./pac.txt: permission denied"))));
              MuUnlock].
Proof.
  exact (failed_reload_skips_reapply unreadable (run [FsEvent writeEvent] (init started0))
           writeEvent [] (errorString "open ./pac.txt: permission denied")
           eq_refl eq_refl eq_refl (conj eq_refl (conj eq_refl eq_refl)) eq_refl).
Defined.

(** X15: when the file is read in a cycle, the blob is replaced by its
    content before the enable command is started, on the listener's address
    with the time as query; the outcome of the command is logged and changes
    nothing else: the new blob stays, the lock is released and the watcher is
    back in its select. *)
Theorem reload_cycle_trace o s w rest :
  pick o = CaseEvent -> (readFile o).2 = None -> isWrite w = true ->
  idle s -> Events s = w :: rest ->
  let url := reapplyURL (addr (env s)) (unix o) in
  let s' := run (cycle o) s in
  idle s' /\ handler s' = {| pacData := (readFile o).1 |} /\ Events s' = tl rest /\
  log s' = log s ++ map (pair TWatch)
                      [changedLine w; MuLock; ReadFile pacLocalPath;
                       StorePac (readFile o).1;
                       ExecStart (enableArgv (bin (env s)) url);
                       match (enableSystemProxy (bin (env s)) url (cmd o)).2 with
                       | Some e => LogPrintf "Failed to update pac config: %v" [AErr (Some e)]
                       | None => LogPrintf "Pac update successfully" []
                       end;
                       MuUnlock].
Proof.
  intros Hp Hf Hw (HW & Hc & Hmu) He.
  destruct s as [en h c mu dn lsc evs errs sg bch pm pw pb lg]. cbn in *. subst.
  destruct o as [pk [data fe] cm ux os sr wr]. cbn in *. subst.
  unfold idle, cycle, run. cbn [replicate fold_left].
  rewrite Hw. destruct rest; cbn; rewrite <- !app_assoc; cbn;
    (destruct (startErr _); [ | destruct (negb _) ]); done.
Qed.

(** The file is read and the enable command prints. *)
Definition refused : Answers := {|
  pick := CaseEvent;
  readFile := (["n"%byte], None);
  cmd := fun _ => {| startErr := None; output := "systemproxy: not supported" |};
  unix := 1700000000;
  outString := "";
  startResult := None;
  waitResult := None
|}.

Lemma reload_cycle_trace_witness :
  let s := run [FsEvent writeEvent] (init started0) in
  let s' := run (cycle refused) s in
  idle s' /\ handler s' = {| pacData := ["n"%byte] |} /\
  In (TWatch, LogPrintf "Failed to update pac config: %v"
                [AErr (Some (errorString "systemproxy: not supported"))]) (log s').
Proof.
  destruct (reload_cycle_trace refused (run [FsEvent writeEvent] (init started0))
              writeEvent [] eq_refl eq_refl eq_refl (conj eq_refl (conj eq_refl eq_refl))
              eq_refl) as (Hi & Hh & _ & Hl).
  split; [ exact Hi | split; [ exact Hh | ] ].
  rewrite Hl. cbn. do 5 right. by left.
Defined.

(** ** Invariants of every run *)

(** A reload is waiting for its reapply. *)
Definition pending (pc : PcWatch) : nat :=
  match pc with WEnable => 1 | _ => 0 end.

Definition paired (s : State) : Prop :=
  reloads s = reapplies s + pending (pcWatch s).

Lemma paired_step l s : paired s -> paired (step l s).
Proof.
  unfold paired, reloads, reapplies.
  step_cases l s; intros H; try done.
  - by destruct sg.
  - destruct pm; cbn; branch; rewrite ?List.filter_app, ?length_app; cbn; lia.
  - destruct pw; cbn; branch; rewrite ?List.filter_app, ?length_app; cbn in *; lia.
  - destruct pb; cbn; branch; rewrite ?List.filter_app, ?length_app; cbn; lia.
Qed.

(** X16: in every run the enable command is started by the watcher only
    after a reload that succeeded and once for each: the reapplies never
    outnumber the reloads, lag behind by at most one, and have caught up
    whenever the watcher is back in its select. *)
Theorem reapply_follows_reload st sched :
  let s := run sched (init st) in
  reapplies s <= reloads s <= reapplies s + 1 /\
  (pcWatch s = WSelect -> reloads s = reapplies s).
Proof.
  intros s.
  assert (H : paired s).
  { apply reachable_ind; [ done | apply paired_step | by exists st, sched ]. }
  unfold paired in H. destruct (pcWatch s); cbn in H; split; (lia || intros; (done || lia)).
Qed.

Definition isLock (te : Tid * Effect) : bool :=
  match te.2 with MuLock => true | _ => false end.

Definition isUnlock (te : Tid * Effect) : bool :=
  match te.2 with MuUnlock => true | _ => false end.

Definition locks (s : State) : nat := length (List.filter isLock (log s)).
Definition unlocks (s : State) : nat := length (List.filter isUnlock (log s)).

Definition balanced (s : State) : Prop :=
  locks s = unlocks s + (if closeMu s then 1 else 0).

Lemma balanced_step l s : Gate s -> balanced s -> balanced (step l s).
Proof.
  unfold balanced, locks, unlocks. intros [Hmu _ _ _].
  step_cases l s; intros H; try done.
  - by destruct sg.
  - destruct pm; cbn; branch; rewrite ?List.filter_app, ?length_app; cbn in *; subst;
      cbn in *; try lia; rewrite orb_true_r in *; lia.
  - destruct pw; cbn; branch; rewrite ?List.filter_app, ?length_app; cbn in *; subst;
      cbn in *; lia.
  - destruct pb; cbn; branch; rewrite ?List.filter_app, ?length_app; cbn in *; lia.
Qed.

(** X17: in every run [closeMu] is locked only when free and unlocked only
    when held: the unlocks never outnumber the locks, and the locks exceed
    them by one exactly while the mutex is held. *)
Theorem gate_mutex_is_balanced st sched :
  let s := run sched (init st) in
  locks s = unlocks s + (if closeMu s then 1 else 0).
Proof.
  intros s.
  assert (H : Gate s /\ balanced s); [ | by destruct H ].
  apply (reachable_ind (fun s => Gate s /\ balanced s)); [ | | by exists st, sched ].
  - intros st'. split; [ apply Gate_init | done ].
  - intros l s' [HG HB]. split; [ by apply Gate_step | by apply balanced_step ].
Qed.

(** The blobs the watcher has stored, oldest first. *)
Definition stored (l : list (Tid * Effect)) : list bytes :=
  flat_map (fun te => match te.2 with StorePac data => [data] | _ => [] end) l.

Definition served (s : State) : Prop :=
  pacData (handler s) = List.last (stored (log s)) (pacData (ph (env s))).

Lemma served_step l s : served s -> served (step l s).
Proof.
  unfold served, stored.
  step_cases l s; intros H; try done.
  - by destruct sg.
  - destruct pm; cbn; branch; rewrite ?flat_map_app; cbn; by rewrite ?app_nil_r.
  - destruct pw; cbn; branch; rewrite ?flat_map_app; cbn; rewrite ?app_nil_r; try done.
    all: simplify_eq; by rewrite ?last_last.
  - destruct pb; cbn; branch; rewrite ?flat_map_app; cbn; by rewrite ?app_nil_r.
Qed.

(** X18: in every run the blob the handler serves is the content of the
    file at the latest reload that read it, and the blob of start-up as long
    as there was none. *)
Theorem served_blob_is_latest_reload st sched :
  let s := run sched (init st) in
  pacData (handler s) = List.last (stored (log s)) (pacData (ph st)).
Proof.
  intros s.
  assert (H : served s).
  { apply reachable_ind; [ done | apply served_step | by exists st, sched ]. }
  unfold served in H. rewrite H. unfold s.
  by rewrite (env_reachable (init st)) by (by exists st, []).
Qed.

(** ** The order of the teardown *)

(** [main] has called [cancel()]. *)
Definition cancelled (pc : PcMain) : bool :=
  match pc with
  | MSelect | MCancelSig | MCancelExit => false
  | _ => true
  end.

(** [main] has closed the listener. *)
Definition listenerGone (pc : PcMain) : bool :=
  match pc with
  | MDisable | MExited _ => true
  | _ => false
  end.

Definition wound (s : State) : Prop :=
  ctxDone s = cancelled (pcMain s) /\ lsClosed s = listenerGone (pcMain s).

Lemma wound_step l s : wound s -> wound (step l s).
Proof.
  unfold wound.
  step_cases l s; intros [H1 H2]; try done.
  - by destruct sg.
  - destruct pm; cbn in *; branch; done.
  - destruct pw; cbn in *; branch; done.
  - destruct pb; cbn in *; branch; done.
Qed.

(** X19: in every run the gate is closed only after [cancel()] and after
    [main] has taken the report of the child's goroutine, which has returned
    by then; the listener is closed only after the gate; and when [main] has
    exited, the context is cancelled, the gate closed and the listener
    closed. *)
Theorem teardown_order st sched :
  let s := run sched (init st) in
  (closed s = true -> ctxDone s = true /\ pcBrook s = BReturned /\ brookCh s = []) /\
  (lsClosed s = true -> closed s = true) /\
  (forall code, pcMain s = MExited code ->
     ctxDone s = true /\ closed s = true /\ lsClosed s = true).
Proof.
  intros s.
  assert (Hr : reachable s) by (by exists st, sched).
  assert (Hw : wound s).
  { revert Hr. apply reachable_ind; [ done | apply wound_step ]. }
  destruct Hw as [Hctx Hls].
  pose proof (Gate_reachable s Hr) as [_ _ Hcl _].
  pose proof (notified_reachable s Hr) as Hn. unfold notified in Hn.
  rewrite Hctx, Hls, Hcl. clear Hctx Hls Hcl.
  destruct (pcMain s); cbn in *; (split; [ | split ]); try done.
  all: intros _; split; [ done | ]; destruct (pcBrook s); try done; by destruct Hn.
Qed.

(** The lines [main] has logged, oldest first. *)
Definition linesOf (l : list (Tid * Effect)) : list Effect :=
  List.filter isLogLine (map snd (List.filter isMain l)).

Definition farewell (code : nat) (line : Effect) : Prop :=
  (code = 0 /\ line = LogPrintf "Bye ..." []) \/
  (code = 1 /\ exists v, line = LogFatalf "Disable system proxy error: %v" [v]).

Definition parted (s : State) : Prop :=
  forall code, pcMain s = MExited code ->
    exists pre line,
      linesOf (log s) = pre ++ [LogPrint (AStr "Disable system proxy ..."); line] /\
      farewell code line.

Lemma parted_step l s : parted s -> parted (step l s).
Proof.
  unfold parted, linesOf, farewell.
  step_cases l s; intros H code; try apply H.
  - destruct sg; apply H.
  - destruct pm; cbn in *; branch; try done;
      rewrite ?List.filter_app, ?map_app, ?List.filter_app; cbn; try apply H.
    all: intros [= <-]; eexists _, _; split; [ reflexivity | ]; eauto.
  - destruct pw; cbn in *; branch;
      rewrite ?List.filter_app, ?map_app, ?List.filter_app; cbn;
      rewrite ?app_nil_r; apply H.
  - destruct pb; cbn in *; branch;
      rewrite ?List.filter_app, ?map_app, ?List.filter_app; cbn;
      rewrite ?app_nil_r; apply H.
Qed.

(** X20: the exit code of a run tells how the disable command went: [main]
    exits with 0 right after logging [Bye ...], and with 1 right after the
    fatal line on the disable command, whether it was a signal or the child
    that ended the run; in both cases the line before is
    [Disable system proxy ...]. *)
Theorem exit_code_tells_disable st sched code :
  let s := run sched (init st) in
  pcMain s = MExited code ->
  exists pre line,
    linesOf (log s) = pre ++ [LogPrint (AStr "Disable system proxy ..."); line] /\
    farewell code line.
Proof.
  intros s.
  assert (H : parted s); [ | apply H ].
  apply reachable_ind; [ done | apply parted_step | by exists st, sched ].
Qed.

Lemma exit_code_tells_disable_witness :
  exists pre line,
    linesOf (log (run shutdown (init started0)))
    = pre ++ [LogPrint (AStr "Disable system proxy ..."); line] /\
    farewell 0 line.
Proof. exact (exit_code_tells_disable started0 shutdown 0 eq_refl). Defined.

(** ** The report of a child that started *)

(** Any move but a step of the child's goroutine. *)
Definition isOther (l : Label) : bool :=
  match l with
  | Run TBrook _ => false
  | _ => true
  end.

Lemma other_step l s :
  isOther l = true ->
  pcBrook (step l s) = pcBrook s /\
  List.filter isSend (log (step l s)) = List.filter isSend (log s).
Proof.
  step_cases l s; intros Hl; try done.
  - by destruct sg.
  - destruct pm; cbn; branch; rewrite ?List.filter_app; cbn; by rewrite ?app_nil_r.
  - destruct pw; cbn; branch; rewrite ?List.filter_app; cbn; by rewrite ?app_nil_r.
Qed.

Lemma others_run sched s :
  forallb isOther sched = true ->
  pcBrook (run sched s) = pcBrook s /\
  List.filter isSend (log (run sched s)) = List.filter isSend (log s).
Proof.
  revert s. induction sched as [ | l sched IH]; intros s Hs; [ done | ].
  cbn in Hs. apply andb_prop in Hs as [Hl Hs].
  change (run (l :: sched) s) with (run sched (step l s)).
  destruct (IH (step l s) Hs) as [-> ->]. by apply other_step.
Qed.

(** The log only grows. *)
Lemma log_step l s : exists more, log (step l s) = log s ++ more.
Proof.
  step_cases l s.
  - exists []. by rewrite app_nil_r.
  - exists []. by rewrite app_nil_r.
  - destruct sg; exists []; by rewrite app_nil_r.
  - destruct pm; cbn; branch; first [ by exists []; rewrite app_nil_r | by eexists ].
  - destruct pw; cbn; branch; first [ by exists []; rewrite app_nil_r | by eexists ].
  - destruct pb; cbn; branch; first [ by exists []; rewrite app_nil_r | by eexists ].
Qed.

Lemma log_run sched s : exists more, log (run sched s) = log s ++ more.
Proof.
  revert s. induction sched as [ | l sched IH]; intros s.
  - exists []. by rewrite app_nil_r.
  - change (run (l :: sched) s) with (run sched (step l s)).
    destruct (IH (step l s)) as [m2 ->]. destruct (log_step l s) as [m1 ->].
    exists (m1 ++ m2). by rewrite app_assoc.
Qed.

(** X21: when the start of the child succeeds, the goroutine logs that the
    client is started, and the one value it sends is what [Wait] returned,
    whatever the other goroutines and the environment do before, between and
    after its three steps. *)
Theorem started_child_reports_wait st a b c d o1 o2 o3 :
  forallb isOther a = true -> forallb isOther b = true ->
  forallb isOther c = true -> forallb isOther d = true ->
  startResult o1 = None ->
  let s := run (a ++ Run TBrook o1 :: b ++ Run TBrook o2 :: c ++ Run TBrook o3 :: d)
             (init st) in
  pcBrook s = BReturned /\
  List.filter isSend (log s) = [(TBrook, ChanSend (waitResult o2))] /\
  In (TBrook, LogPrintf "Brook client is start with address 127.0.0.1:1080" []) (log s).
Proof.
  intros Ha Hb Hc Hd Hstart s. subst s.
  rewrite run_app. change (run (?l :: ?k) ?s) with (run k (step l s)).
  rewrite run_app. change (run (?l :: ?k) ?s) with (run k (step l s)).
  rewrite run_app. change (run (?l :: ?k) ?s) with (run k (step l s)).
  set (s1 := run a (init st)).
  destruct (others_run a (init st) Ha) as [Hpc1 Hl1]. fold s1 in Hpc1, Hl1.
  set (s2 := step (Run TBrook o1) s1).
  assert (H2 : pcBrook s2 = BWait /\ List.filter isSend (log s2) = [] /\
               In (TBrook, LogPrintf "Brook client is start with address 127.0.0.1:1080" [])
                  (log s2)).
  { unfold s2, step, brook, emit. rewrite Hpc1, Hstart. cbn.
    rewrite List.filter_app, Hl1. cbn. split; [ done | split; [ done | ] ].
    apply in_app_iff. right. right. by left. }
  destruct H2 as (Hpc2 & Hl2 & Hin2).
  set (s3 := run b s2).
  destruct (others_run b s2 Hb) as [Hpc3 Hl3]. fold s3 in Hpc3, Hl3.
  set (s4 := step (Run TBrook o2) s3).
  assert (H4 : pcBrook s4 = BSendWait (waitResult o2) /\ log s4 = log s3).
  { unfold s4, step, brook. by rewrite Hpc3, Hpc2. }
  destruct H4 as (Hpc4 & Hl4).
  set (s5 := run c s4).
  destruct (others_run c s4 Hc) as [Hpc5 Hl5]. fold s5 in Hpc5, Hl5.
  assert (Hr5 : reachable s5).
  { exists st, (a ++ Run TBrook o1 :: b ++ Run TBrook o2 :: c).
    rewrite run_app. change (run (?l :: ?k) ?s) with (run k (step l s)).
    rewrite run_app. by change (run (?l :: ?k) ?s) with (run k (step l s)). }
  pose proof (notified_reachable s5 Hr5) as Hn. unfold notified in Hn.
  rewrite Hpc5, Hpc4 in Hn. destruct Hn as [Hch _].
  set (s6 := step (Run TBrook o3) s5).
  assert (H6 : pcBrook s6 = BReturned /\
               log s6 = log s5 ++ [(TBrook, ChanSend (waitResult o2))]).
  { unfold s6, step, brook, send, emit. by rewrite Hpc5, Hpc4, Hch. }
  destruct H6 as (Hpc6 & Hl6).
  destruct (others_run d s6 Hd) as [-> ->].
  rewrite Hl6, List.filter_app, Hl5, Hl4, Hl3, Hl2. split; [ done | split; [ done | ] ].
  destruct (log_run d s6) as [m6 ->]. rewrite Hl6.
  destruct (log_run c s4) as [m5 Hm5]. fold s5 in Hm5. rewrite Hm5, Hl4.
  destruct (log_run b s2) as [m3 Hm3]. fold s3 in Hm3. rewrite Hm3.
  rewrite !in_app_iff. auto.
Qed.

(** The child runs until the context is cancelled, while a write event is
    handled and a signal arrives. *)
Definition killed : Answers := {|
  pick := CaseSignal;
  readFile := ([], None);
  cmd := fun _ => {| startErr := None; output := "" |};
  unix := 0;
  outString := "";
  startResult := None;
  waitResult := Some (errorString "signal: killed")
|}.

Lemma started_child_reports_wait_witness :
  let s := run ([FsEvent writeEvent] ++ Run TBrook (calm CaseSignal)
                :: [Run TWatch (calm CaseEvent); Deliver SIGINT] ++ Run TBrook killed
                :: [Run TMain (calm CaseSignal); Run TMain (calm CaseSignal)]
                   ++ Run TBrook (calm CaseSignal)
                :: [Run TMain (calm CaseSignal)])
             (init started0) in
  pcBrook s = BReturned /\
  List.filter isSend (log s)
  = [(TBrook, ChanSend (Some (errorString "signal: killed")))] /\
  In (TBrook, LogPrintf "Brook client is start with address 127.0.0.1:1080" []) (log s).
Proof.
  exact (started_child_reports_wait started0
           [FsEvent writeEvent] [Run TWatch (calm CaseEvent); Deliver SIGINT]
           [Run TMain (calm CaseSignal); Run TMain (calm CaseSignal)]
           [Run TMain (calm CaseSignal)]
           (calm CaseSignal) killed (calm CaseSignal)
           eq_refl eq_refl eq_refl eq_refl eq_refl).
Defined.

(** ** The end of the watcher *)

Definition isWatch (te : Tid * Effect) : bool :=
  match te.1 with TWatch => true | _ => false end.

(** The watcher is on its way out or has returned. *)
Definition leaving (pc : PcWatch) : bool :=
  match pc with
  | WUnlockReturn | WReturned => true
  | _ => false
  end.

Definition retired (s : State) : Prop :=
  leaving (pcWatch s) = true -> ctxDone s = true.

Lemma retired_step l s : Gate s -> wound s -> retired s -> retired (step l s).
Proof.
  unfold retired, wound. intros [_ _ Hcl _] [Hctx _].
  step_cases l s; intros H; try done.
  - by destruct sg.
  - destruct pm; cbn in *; branch; try done; intros Hl; by apply H.
  - destruct pw; cbn in *; branch; try done; subst; by destruct pm.
  - destruct pb; cbn in *; branch; done.
Qed.

Lemma returned_step l s :
  pcWatch s = WReturned ->
  pcWatch (step l s) = WReturned /\ handler (step l s) = handler s /\
  List.filter isWatch (log (step l s)) = List.filter isWatch (log s).
Proof.
  step_cases l s; intros ->; try done.
  - by destruct sg.
  - destruct pm; cbn; branch; rewrite ?List.filter_app; cbn; by rewrite ?app_nil_r.
  - destruct pb; cbn; branch; rewrite ?List.filter_app; cbn; by rewrite ?app_nil_r.
Qed.

(** X26: the watcher returns only after [cancel()], and once it has
    returned it does nothing more, whatever events arrive: it stays
    returned, logs nothing and the blob stays. *)
Theorem watcher_returns_after_cancel st sched more :
  let s := run sched (init st) in
  let s' := run more s in
  pcWatch s = WReturned ->
  ctxDone s = true /\ pcWatch s' = WReturned /\ handler s' = handler s /\
  List.filter isWatch (log s') = List.filter isWatch (log s).
Proof.
  intros s s' HW. split.
  - assert (H : Gate s /\ wound s /\ retired s).
    { apply (reachable_ind (fun s => Gate s /\ wound s /\ retired s));
        [ | | by exists st, sched ].
      - intros st'. split; [ apply Gate_init | done ].
      - intros l s0 (HG & Hw & Hr).
        split; [ by apply Gate_step | split; [ by apply wound_step | by apply retired_step ] ]. }
    destruct H as (_ & _ & H). apply H. by rewrite HW.
  - unfold s'. clear s'. revert HW. generalize s. clear s.
    induction more as [ | l more IH]; intros s HW; [ done | ].
    change (run (l :: more) s) with (run more (step l s)).
    destruct (returned_step l s HW) as (HW' & Hh & Hl).
    destruct (IH (step l s) HW') as (? & ? & ?). repeat split; congruence.
Qed.

(** A signal ends the run while the watcher waits; write events follow. *)
Definition signalled : list Label :=
  [Deliver SIGTERM; Run TMain (calm CaseSignal); Run TMain (calm CaseSignal);
   Run TWatch (calm CaseDone)].

Lemma watcher_returns_after_cancel_witness :
  let s := run signalled (init started0) in
  let s' := run (FsEvent writeEvent :: replicate 8 (Run TWatch (calm CaseEvent))) s in
  ctxDone s = true /\ pcWatch s' = WReturned /\ handler s' = handler s /\
  List.filter isWatch (log s') = List.filter isWatch (log s).
Proof.
  exact (watcher_returns_after_cancel started0 signalled
           (FsEvent writeEvent :: replicate 8 (Run TWatch (calm CaseEvent))) eq_refl).
Defined.

(** ** The commands of the concurrent phase *)

(** The three commands: the reapply of the watcher, the client of the
    child's goroutine, the disable command of [main]. *)
Definition knownCommand (st : Started) (te : Tid * Effect) : Prop :=
  match te with
  | (TWatch, ExecStart argv) =>
      exists ts, argv = enableArgv (bin st) (reapplyURL (addr st) ts)
  | (TBrook, ExecStart argv) => argv = clientArgv st
  | (TMain, ExecStart argv) => argv = disableArgv (bin st)
  | _ => True
  end.

Lemma knownCommand_step l s :
  Forall (knownCommand (env s)) (log s) ->
  Forall (knownCommand (env (step l s))) (log (step l s)).
Proof.
  rewrite env_step.
  step_cases l s; intros H; try done.
  - by destruct sg.
  - destruct pm; cbn; branch; try done; apply Forall_app; split; try done;
      by repeat constructor.
  - destruct pw; cbn; branch; try done; apply Forall_app; split; try done;
      repeat constructor; by eexists.
  - destruct pb; cbn; branch; try done; apply Forall_app; split; try done;
      by repeat constructor.
Qed.

(** X27: in every run the only commands started are the reapply of the
    watcher, on the listener's address, the client of the child's goroutine,
    with the server and the password of the flags, and the disable command
    of [main]; all of them run the binary start-up settled on. *)
Theorem only_known_commands st sched t argv :
  let s := run sched (init st) in
  In (t, ExecStart argv) (log s) ->
  hd "" argv = bin st /\
  match t with
  | TWatch => exists ts, argv = enableArgv (bin st) (reapplyURL (addr st) ts)
  | TBrook => argv = clientArgv st
  | TMain => argv = disableArgv (bin st)
  end.
Proof.
  intros s Hin.
  assert (H : Forall (knownCommand (env s)) (log s)).
  { apply (reachable_ind (fun s => Forall (knownCommand (env s)) (log s)));
      [ by constructor | apply knownCommand_step | by exists st, sched ]. }
  unfold s in H at 1. rewrite (env_reachable (init st)) in H by (by exists st, []).
  cbn in H. rewrite Forall_forall in H. apply list_elem_of_In in Hin.
  specialize (H _ Hin). cbn in H.
  destruct t; [ by subst | destruct H as [ts ->]; eauto | by subst ].
Qed.

Lemma only_known_commands_witness :
  hd "" (disableArgv "/usr/local/bin/brook") = "/usr/local/bin/brook" /\
  disableArgv "/usr/local/bin/brook" = disableArgv (bin started0).
Proof.
  apply (only_known_commands started0 shutdown TMain). in_trace.
Defined.

End Loops.

(** * The serving goroutine *)

Module Serving.

Import Startup.

(** [strings.Contains]. *)
Fixpoint strings_Contains (s substr : string) : bool :=
  String.prefix substr s ||
  match s with
  | "" => false
  | String _ rest => strings_Contains rest substr
  end.

Definition closedConnection : string := "use of closed network connection".

(** Lines 196-205, given the error [server.Serve(ls)] returns: the
    goroutine returns, or ends the process. *)
Definition serveLoop (err : error) : M unit :=
  if negb (strings_Contains (Error err) closedConnection) then
    Fatalf "HTTP server stop serve with error: %v" [AErr (Some err)]
  else mret tt.

Lemma prefix_append (p s : string) :
  String.prefix p s = true <-> exists q, s = p +:+ q.
Proof.
  revert s. induction p as [ | a p IH]; intros s.
  - split; [ by exists s | by destruct s ].
  - destruct s as [ | b s]; cbn.
    + split; [ done | by intros [q Hq] ].
    + destruct (Ascii.ascii_dec a b) as [-> | Hne].
      * rewrite IH. split; intros [q Hq]; exists q.
        -- change (String b p +:+ q) with (String b (p +:+ q)). by rewrite Hq.
        -- change (String b p +:+ q) with (String b (p +:+ q)) in Hq. by injection Hq.
      * split; [ done | ]. intros [q Hq].
        change (String a p +:+ q) with (String a (p +:+ q)) in Hq. by injection Hq.
Qed.

Lemma Contains_spec (s substr : string) :
  strings_Contains s substr = true <-> exists p q, s = p +:+ substr +:+ q.
Proof.
  induction s as [ | a s IH]; cbn [strings_Contains]; rewrite orb_true_iff, prefix_append.
  - split.
    + intros [[q Hq] | ]; [ by exists "", q | done ].
    + intros (p & q & Hq). left. destruct p; [ by exists q | done ].
  - rewrite IH. split.
    + intros [[q Hq] | (p & q & ->)]; [ by exists "", q | by exists (String a p), q ].
    + intros (p & q & Hq). destruct p as [ | b p].
      * left. by exists q.
      * right. change (String b p +:+ ?x) with (String b (p +:+ x)) in Hq.
        injection Hq as -> ->. by exists p, q.
Qed.

(** X25: the serving goroutine returns in silence exactly when the error of
    [Serve] mentions [use of closed network connection], as after
    [ls.Close()] in the teardown; any other error ends the whole process
    with code 1 and one fatal line that prints the error. *)
Theorem serve_error_is_fatal_unless_closed err :
  (serveLoop err = ([], Continue tt) <->
   exists p q, Error err = p +:+ closedConnection +:+ q) /\
  (serveLoop err = ([], Continue tt) \/
   serveLoop err
   = ([LogFatalf "HTTP server stop serve with error: %v" [AErr (Some err)]], Exit 1)).
Proof.
  rewrite <- Contains_spec. unfold serveLoop.
  destruct (strings_Contains (Error err) closedConnection); cbn.
  - split; [ done | by left ].
  - split; [ done | by right ].
Qed.

Lemma serve_error_is_fatal_unless_closed_witness :
  serveLoop (errorString "accept tcp 127.0.0.1:40000: use of closed network connection")
  = ([], Continue tt).
Proof.
  apply (proj1 (serve_error_is_fatal_unless_closed _)).
  by exists "accept tcp 127.0.0.1:40000: ", "".
Defined.

End Serving.

(** * More on the stored blob *)

Module StoreOrder.

Import ConfigStore.

(** X22: in every run at most one goroutine is between [mu.Lock] and
    [mu.Unlock] of the handler, and it is the one that holds [mu]. *)
Theorem one_goroutine_in_section initial progs sched i j gi gj :
  let s := run sched (start initial progs) in
  threads s !! i = Some gi -> threads s !! j = Some gj ->
  pc gi <> Idle -> pc gj <> Idle ->
  i = j /\ mu s = Some i.
Proof.
  intros s Hi Hj Hpi Hpj.
  destruct (Inv_run initial sched _ (Inv_start initial progs)) as [Hown _ _].
  pose proof (Hown i gi Hi Hpi) as H1. pose proof (Hown j gj Hj Hpj) as H2.
  fold s in H1, H2. split; [ congruence | done ].
Qed.

(** X23: a snapshot that is about to unlock returns the blob of the latest
    [Replace] that has unlocked, the initial blob when there is none, and
    leaves the mutex free. *)
Theorem snapshot_is_latest initial progs sched i g p n :
  let s := run sched (start initial progs) in
  threads s !! i = Some g -> pc g = Load2 p n ->
  mu (step i s) = None /\
  exists g', threads (step i s) !! i = Some g' /\ pc g' = Idle /\
             got g' = got g ++ [List.last (done s) initial].
Proof.
  intros s Hi Hpc.
  destruct (Inv_run initial sched _ (Inv_start initial progs)) as [Hown Hst _].
  fold s in Hown, Hst.
  rewrite (Hown i g Hi) in Hst by (by rewrite Hpc).
  destruct Hst as (g0 & Hg0 & Hheld). assert (g0 = g) by congruence. subst g0.
  unfold held in Hheld. rewrite Hpc in Hheld. destruct Hheld as (_ & -> & ->).
  unfold step. rewrite Hi, Hpc. cbn. split; [ done | ].
  eexists. rewrite list_lookup_insert_eq by (by eapply lookup_lt_Some).
  split; [ done | ]. cbn. by rewrite take_whole.
Qed.

(** X24: no run gets stuck: as long as a goroutine has a call to make or is
    inside one, some goroutine can take a step. *)
Theorem store_never_stuck initial progs sched j g :
  let s := run sched (start initial progs) in
  threads s !! j = Some g -> todo g <> [] \/ pc g <> Idle ->
  exists i, step i s <> s.
Proof.
  intros s Hj Hwork.
  destruct (Inv_run initial sched _ (Inv_start initial progs)) as [Hown Hst _].
  fold s in Hown, Hst.
  destruct (mu s) as [i | ] eqn:Hmu.
  - destruct Hst as (gi & Hi & Hheld). exists i. intros Heq.
    assert (Hsame : threads (step i s) !! i = Some gi) by (by rewrite Heq).
    unfold step in Hsame. rewrite Hi in Hsame. unfold held in Hheld.
    assert (Hlt : i < length (threads s)) by (by eapply lookup_lt_Some).
    destruct (pc gi) eqn:Hpc; [ done | .. ]; cbn in Hsame;
      rewrite list_lookup_insert_eq in Hsame by done;
      injection Hsame as Hsame; rewrite <- Hsame in Hpc; discriminate.
  - assert (Hidle : pc g = Idle).
    { destruct (pc g) eqn:Hpc; [ done | .. ];
        specialize (Hown j g Hj); rewrite Hpc in Hown; by specialize (Hown ltac:(done)). }
    destruct Hwork as [Hwork | Hwork]; [ | done ].
    exists j. intros Heq. assert (Hsame : mu (step j s) = None) by (by rewrite Heq).
    unfold step in Hsame. rewrite Hj, Hidle, Hmu in Hsame.
    by destruct (todo g).
Qed.

Lemma one_goroutine_in_section_witness :
  let s := run [1; 0; 1] (start [] twoWorkers) in
  mu s = Some 1.
Proof.
  exact (proj2 (one_goroutine_in_section [] twoWorkers [1; 0; 1] 1 1 _ _
                  eq_refl eq_refl ltac:(discriminate) ltac:(discriminate))).
Defined.

Lemma snapshot_is_latest_witness :
  let s := run [0; 0; 0; 0; 1; 1; 1] (start [] twoWorkers) in
  exists g', threads (step 1 s) !! 1 = Some g' /\ pc g' = Idle /\ got g' = [blobA].
Proof.
  exact (proj2 (snapshot_is_latest [] twoWorkers [0; 0; 0; 0; 1; 1; 1] 1 _ _ _
                  eq_refl eq_refl)).
Defined.

Lemma store_never_stuck_witness :
  exists i, step i (run [1; 0; 1] (start [] twoWorkers)) <> run [1; 0; 1] (start [] twoWorkers).
Proof.
  exact (store_never_stuck [] twoWorkers [1; 0; 1] 0 _ eq_refl ltac:(left; discriminate)).
Defined.

End StoreOrder.
